(** * Region group back-pressure (dirty_memory_manager.cc)

    A shallow embedding of [region_group] and [allocation_queue] from
    [src/dirty_memory_manager.cc], and the properties of the region-group
    specification proved over it.

    Conventions.
    - [size_t] and [ssize_t] values are integers in [Z]; every arithmetic
      result stored in a [size_t] field is reduced with [wrap_size].
    - A [region*] is an address; the objects live in a store
      [gmap addr size_tracked_region] that the group's operations read and
      write through the pointer.
    - Calls that leave the group (soft notifications, [_relief.signal()],
      [allocate()], [fail()]) are appended to the ghost field [observed], in
      call order, and so is each call of [update] with its argument. *)

From stdpp Require Import gmap strings list.
From Stdlib Require Import ZArith Lia Sorted.

Local Open Scope Z_scope.

(** ** Machine integers *)

Definition size_bits : Z := 64.
Definition size_modulus : Z := 2 ^ size_bits.

(** [std::numeric_limits<size_t>::max()] *)
Definition size_max : Z := size_modulus - 1.

(** Value kept by a [size_t] object after an assignment. *)
Definition wrap_size (z : Z) : Z := z mod size_modulus.

(** Conversion to [ssize_t] (two's complement). *)
Definition to_ssize (z : Z) : Z :=
  let w := z mod size_modulus in
  if w <? size_modulus / 2 then w else w - size_modulus.

(** ** Data *)

Abbreviation addr := N (only parsing).
Abbreviation handle_type := nat (only parsing).
Abbreviation request := nat (only parsing).
Abbreviation time_point := Z (only parsing).

Record occupancy_stats := mk_occupancy {
  used_space : Z;
  total_space : Z
}.

(** [size_tracked_region]: a region with the handle of its entry in the
    owning group's heap. *)
Record size_tracked_region := mk_region {
  occupancy : occupancy_stats;
  evictable_occupancy : occupancy_stats;
  _heap_handle : option handle_type
}.

Definition with_heap_handle (h : option handle_type) (r : size_tracked_region)
  : size_tracked_region :=
  {| occupancy := occupancy r;
     evictable_occupancy := evictable_occupancy r;
     _heap_handle := h |}.

Record reclaim_config := mk_reclaim_config {
  soft_limit_threshold : Z;
  throttle_threshold : Z;
  hard_throttle_threshold : Z
}.

Inductive exception :=
| blocked_requests_timed_out_error (name : string).

(** What the group does to its surroundings. *)
Inductive event :=
| soft_pressure_notified
| soft_relief_notified
| relief_signalled
| delta_applied (delta : Z)
| allocated (req : request)
| failed (req : request) (ex : exception).

Global Instance exception_eq_dec : EqDecision exception.
Proof. solve_decision. Defined.

Global Instance event_eq_dec : EqDecision event.
Proof. solve_decision. Defined.

(** Modelled from the spec: the priority structure [region_heap] (a boost
    binomial heap of [size_tracked_region*] declared in the header) is an
    addressable structure with insert returning a handle, remove by handle
    and peek of the maximum under the comparator.  It is kept as the list of
    its entries in insertion order with the next unused handle. *)
Record region_heap := mk_heap {
  entries : list (handle_type * addr);
  next_handle : handle_type
}.

(** Modelled from the spec: the relief condition ([seastar::condition_variable]
    [_relief]).  A signal wakes the waiter if there is one and is remembered
    otherwise; several pending signals are one wake. *)
Record condition_variable := mk_condvar {
  has_waiter : bool;
  signalled : bool
}.

(** Modelled from the spec: the queue of blocked requests (an
    [expiring_fifo] with the [on_request_expiry] functor, declared in the
    header): requests in arrival order, each with an optional deadline. *)
Record allocation_queue := mk_queue {
  on_expiry_name : string;
  fifo : list (request * option time_point)
}.

Record region_group := mk_region_group {
  _cfg : reclaim_config;
  _under_pressure : bool;
  _total_memory : Z;
  _hard_total_memory : Z;
  _regions : region_heap;
  _relief : condition_variable;
  _under_hard_pressure : bool;
  _blocked_requests : allocation_queue;
  _shutdown_requested : bool;
  observed : list event
}.

(** Field assignments. *)

Definition set_under_pressure (b : bool) (g : region_group) : region_group :=
  mk_region_group (_cfg g) b (_total_memory g) (_hard_total_memory g)
    (_regions g) (_relief g) (_under_hard_pressure g) (_blocked_requests g)
    (_shutdown_requested g) (observed g).

Definition set_total_memory (z : Z) (g : region_group) : region_group :=
  mk_region_group (_cfg g) (_under_pressure g) z (_hard_total_memory g)
    (_regions g) (_relief g) (_under_hard_pressure g) (_blocked_requests g)
    (_shutdown_requested g) (observed g).

Definition set_hard_total_memory (z : Z) (g : region_group) : region_group :=
  mk_region_group (_cfg g) (_under_pressure g) (_total_memory g) z
    (_regions g) (_relief g) (_under_hard_pressure g) (_blocked_requests g)
    (_shutdown_requested g) (observed g).

Definition set_regions (h : region_heap) (g : region_group) : region_group :=
  mk_region_group (_cfg g) (_under_pressure g) (_total_memory g)
    (_hard_total_memory g) h (_relief g) (_under_hard_pressure g)
    (_blocked_requests g) (_shutdown_requested g) (observed g).

Definition set_relief (c : condition_variable) (g : region_group) : region_group :=
  mk_region_group (_cfg g) (_under_pressure g) (_total_memory g)
    (_hard_total_memory g) (_regions g) c (_under_hard_pressure g)
    (_blocked_requests g) (_shutdown_requested g) (observed g).

Definition set_under_hard_pressure (b : bool) (g : region_group) : region_group :=
  mk_region_group (_cfg g) (_under_pressure g) (_total_memory g)
    (_hard_total_memory g) (_regions g) (_relief g) b (_blocked_requests g)
    (_shutdown_requested g) (observed g).

Definition set_blocked_requests (q : allocation_queue) (g : region_group)
  : region_group :=
  mk_region_group (_cfg g) (_under_pressure g) (_total_memory g)
    (_hard_total_memory g) (_regions g) (_relief g) (_under_hard_pressure g) q
    (_shutdown_requested g) (observed g).

Definition set_shutdown_requested (b : bool) (g : region_group) : region_group :=
  mk_region_group (_cfg g) (_under_pressure g) (_total_memory g)
    (_hard_total_memory g) (_regions g) (_relief g) (_under_hard_pressure g)
    (_blocked_requests g) b (observed g).

Definition emit (e : event) (g : region_group) : region_group :=
  mk_region_group (_cfg g) (_under_pressure g) (_total_memory g)
    (_hard_total_memory g) (_regions g) (_relief g) (_under_hard_pressure g)
    (_blocked_requests g) (_shutdown_requested g) (observed g ++ [e]).

(** ** Pressure state *)

(** Modelled from the spec: the inline members [under_pressure],
    [notify_pressure], [notify_relief], [notify_soft_pressure] and
    [notify_soft_relief] are declared in the header.  Throttle pressure is a
    latched flag of the group; the soft notifications go to an outside
    observer that keeps its own latch. *)
Definition under_pressure (g : region_group) : bool := _under_pressure g.
Definition notify_pressure (g : region_group) : region_group :=
  set_under_pressure true g.
Definition notify_relief (g : region_group) : region_group :=
  set_under_pressure false g.
Definition notify_soft_pressure (g : region_group) : region_group :=
  emit soft_pressure_notified g.
Definition notify_soft_relief (g : region_group) : region_group :=
  emit soft_relief_notified g.

(** [condition_variable::signal] *)
Definition signal (c : condition_variable) : condition_variable :=
  if has_waiter c then mk_condvar false (signalled c)
  else mk_condvar false true.

(** [region_group::execution_permitted] *)
Definition execution_permitted (g : region_group) : bool :=
  negb (under_pressure g || _under_hard_pressure g).

(** [region_group::reclaimer_can_block] *)
Definition reclaimer_can_block (g : region_group) : bool :=
  negb (throttle_threshold (_cfg g) =? size_max).

(** [_relief.signal()] *)
Definition signal_relief (g : region_group) : region_group :=
  emit relief_signalled (set_relief (signal (_relief g)) g).

(** [region_group::notify_pressure_relieved] *)
Definition notify_pressure_relieved (g : region_group) : region_group :=
  signal_relief g.

(** [region_group::do_update_hard_and_check_relief] *)
Definition do_update_hard_and_check_relief (delta : Z) (g : region_group)
  : bool * region_group :=
  let g := set_hard_total_memory (wrap_size (_hard_total_memory g + delta)) g in
  if _hard_total_memory g >? hard_throttle_threshold (_cfg g) then
    (false, set_under_hard_pressure true g)
  else if _under_hard_pressure g then
    (true, set_under_hard_pressure false g)
  else (false, g).

(** [region_group::update_hard] *)
Definition update_hard (delta : Z) (g : region_group) : region_group :=
  let '(r, g) := do_update_hard_and_check_relief delta g in
  if r then notify_pressure_relieved g else g.

(** [region_group::update]; the first [emit] records the call and its
    argument. *)
Definition update (delta : Z) (g : region_group) : region_group :=
  let relief := false in
  let g := emit (delta_applied delta) g in
  let g := set_total_memory (wrap_size (_total_memory g + delta)) g in
  let g := if _total_memory g >? soft_limit_threshold (_cfg g)
           then notify_soft_pressure g else notify_soft_relief g in
  let '(relief, g) :=
    if _total_memory g >? throttle_threshold (_cfg g) then
      (relief, notify_pressure g)
    else if under_pressure g then (true, notify_relief g)
    else (relief, g) in
  let '(r, g) := do_update_hard_and_check_relief delta g in
  let relief := relief || r in
  if relief then notify_pressure_relieved g else g.

(** ** Regions behind pointers *)

Abbreviation store := (gmap addr size_tracked_region) (only parsing).

(** [r->occupancy().total_space()]; a pointer to no region reads as 0. *)
Definition region_total_space (mem : store) (r : addr) : Z :=
  match mem !! r with
  | Some x => total_space (occupancy x)
  | None => 0
  end.

(** [r->evictable_occupancy().total_space()] *)
Definition region_evictable_space (mem : store) (r : addr) : Z :=
  match mem !! r with
  | Some x => total_space (evictable_occupancy x)
  | None => 0
  end.

(** [r->_heap_handle] *)
Definition region_heap_handle (mem : store) (r : addr) : option handle_type :=
  match mem !! r with
  | Some x => _heap_handle x
  | None => None
  end.

(** ** The priority structure *)

(** [region_evictable_occupancy_ascending_less_comparator::operator()] *)
Definition region_evictable_occupancy_ascending_less_comparator
    (mem : store) (r1 r2 : addr) : bool :=
  region_evictable_space mem r1 <? region_evictable_space mem r2.

Definition heap_empty (h : region_heap) : bool :=
  match entries h with
  | [] => true
  | _ :: _ => false
  end.

(** [push]: the new entry gets an unused handle, which is returned. *)
Definition heap_push (r : addr) (h : region_heap) : handle_type * region_heap :=
  (next_handle h, mk_heap (entries h ++ [(next_handle h, r)]) (S (next_handle h))).

(** [erase]: the entry of the handle leaves the structure (a handle with
    no entry, which the code never passes, removes nothing). *)
Definition heap_erase (hd : handle_type) (h : region_heap) : region_heap :=
  mk_heap (filter (λ e, e.1 ≠ hd) (entries h)) (next_handle h).

(** Greatest element of a list under a strict "less" [lt]: the candidate
    replaces the current best only when the best is less than it. *)
Definition pick_top (lt : addr → addr → bool) (best : option addr) (r : addr)
  : option addr :=
  match best with
  | None => Some r
  | Some b => if lt b r then Some r else Some b
  end.

(** [top]: an element that is not less than any other (max-heap of the
    comparator). *)
Definition heap_top (mem : store) (h : region_heap) : option addr :=
  foldl (pick_top (region_evictable_occupancy_ascending_less_comparator mem))
        None (snd <$> entries h).

(** Modelled from the spec: an ordered iteration ([ordered_begin] ..
    [ordered_end]) visits every entry, from the top down.  The library
    leaves open in which order it visits entries that compare equal;
    [heap_ordered] is the iteration that keeps them in insertion order, and
    [ordered_iteration] below is what every iteration satisfies. *)
Fixpoint ordered_insert (mem : store) (e : handle_type * addr)
    (l : list (handle_type * addr)) : list (handle_type * addr) :=
  match l with
  | [] => [e]
  | e' :: l' =>
      if region_evictable_occupancy_ascending_less_comparator mem e.2 e'.2
      then e' :: ordered_insert mem e l'
      else e :: l
  end.

Definition heap_ordered (mem : store) (h : region_heap)
  : list (handle_type * addr) :=
  foldr (ordered_insert mem) [] (entries h).

(** The loop of [region_group_binomial_group_sanity_check]: [true] when no
    element exceeds its predecessor ([failed] stays false). *)
Fixpoint sanity_scan (mem : store) (last : Z) (l : list (handle_type * addr))
  : bool :=
  match l with
  | [] => true
  | b :: l' =>
      let t := region_evictable_space mem b.2 in
      if negb (t <=? last) then false else sanity_scan mem t l'
  end.

(** [region_group_binomial_group_sanity_check] (the body exists only under
    SEASTAR_DEBUG, where a failed scan aborts). *)
Definition region_group_binomial_group_sanity_check
    (mem : store) (bh : region_heap) : bool :=
  sanity_scan mem size_max (heap_ordered mem bh).

(** [region_group::top_region_evictable_space] *)
Definition top_region_evictable_space (mem : store) (g : region_group) : Z :=
  if heap_empty (_regions g) then 0
  else match heap_top mem (_regions g) with
       | Some r => region_evictable_space mem r
       | None => 0
       end.

(** [region_group::get_largest_region]; [None] is [nullptr]. *)
Definition get_largest_region (mem : store) (g : region_group) : option addr :=
  if heap_empty (_regions g) then None else heap_top mem (_regions g).

(** ** Membership *)

(** The operations run on the store and the group; [None] is a call that
    does not return: a failed [assert], or a pointer to no region.  The
    calls of [region_group_binomial_group_sanity_check] change nothing and,
    by [sanity_check_passes], do not abort. *)

(** [region_group::add] *)
Definition add (child_r : addr) (w : store * region_group)
  : option (store * region_group) :=
  let '(mem, g) := w in
  child ← mem !! child_r;
  match _heap_handle child with
  | Some _ => None
  | None =>
      let '(h, heap) := heap_push child_r (_regions g) in
      let mem := <[child_r := with_heap_handle (Some h) child]> mem in
      let g := set_regions heap g in
      Some (mem, update (to_ssize (total_space (occupancy child))) g)
  end.

(** [region_group::del] *)
Definition del (child_r : addr) (w : store * region_group)
  : option (store * region_group) :=
  let '(mem, g) := w in
  child ← mem !! child_r;
  match _heap_handle child with
  | Some h =>
      let mem := <[child_r := with_heap_handle None child]> mem in
      let g := set_regions (heap_erase h (_regions g)) g in
      Some (mem,
            update (to_ssize (wrap_size (- total_space (occupancy child)))) g)
  | None => Some (mem, g)
  end.

(** [region_group::moved] *)
Definition moved (old_address new_address : addr) (w : store * region_group)
  : option (store * region_group) :=
  let '(mem, g) := w in
  old_child ← mem !! old_address;
  let '(mem, g) :=
    match _heap_handle old_child with
    | Some h =>
        (<[old_address := with_heap_handle None old_child]> mem,
         set_regions (heap_erase h (_regions g)) g)
    | None => (mem, g)
    end in
  _ ← mem !! new_address;
  let '(h, heap) := heap_push new_address (_regions g) in
  Some (alter (with_heap_handle (Some h)) old_address mem, set_regions heap g).

(** ** Blocked requests *)

Definition queue_empty (q : allocation_queue) : bool :=
  match fifo q with
  | [] => true
  | _ :: _ => false
  end.

(** Modelled from the spec: [enqueue(request, expiry)] of the queue
    (its [push_back] is declared in the header) appends to the back. *)
Definition enqueue (req : request) (expiry : option time_point)
    (g : region_group) : region_group :=
  let q := _blocked_requests g in
  set_blocked_requests (mk_queue (on_expiry_name q) (fifo q ++ [(req, expiry)])) g.

(** [allocation_queue::execute_one]; [front()] of an empty queue does not
    return. *)
Definition execute_one (g : region_group) : option region_group :=
  let q := _blocked_requests g in
  match fifo q with
  | [] => None
  | (req, _) :: rest =>
      Some (emit (allocated req)
              (set_blocked_requests (mk_queue (on_expiry_name q) rest) g))
  end.

(** [allocation_queue::on_request_expiry::operator()] *)
Definition on_request_expiry (_name : string) (func : request) : event :=
  failed func (blocked_requests_timed_out_error _name).

Definition deadline_elapsed (now : time_point) (e : request * option time_point)
  : bool :=
  match e.2 with
  | Some t => t <=? now
  | None => false
  end.

(** Modelled from the spec: expiry of queued requests.  When the clock
    reads [now], every entry whose deadline has elapsed is handed to the
    expiry functor, in queue order, and leaves the queue. *)
Definition expire (now : time_point) (g : region_group) : region_group :=
  let q := _blocked_requests g in
  let gone := filter (λ e, deadline_elapsed now e) (fifo q) in
  let kept := filter (λ e, ¬ deadline_elapsed now e) (fifo q) in
  foldl (λ g e, emit (on_request_expiry (on_expiry_name q) e.1) g)
        (set_blocked_requests (mk_queue (on_expiry_name q) kept) g) gone.

(** ** The releaser *)

Inductive stop_iteration := stop_yes | stop_no.

(** What one run of the loop body hands to [repeat]: a ready future with
    its value, or a future that waits for [_relief]. *)
Inductive iteration := ready (s : stop_iteration) | waits.

(** [condition_variable::wait]: [true] when a remembered signal is
    consumed and the future is ready at once. *)
Definition wait (c : condition_variable) : bool * condition_variable :=
  if signalled c then (true, mk_condvar (has_waiter c) false)
  else (false, mk_condvar true false).

(** The body given to [repeat] in [region_group::start_releaser].  The
    [tracker_reclaimer_lock] held around the wait belongs to the allocator
    and leaves the group as it is. *)
Definition releaser_iteration (g : region_group)
  : option (iteration * region_group) :=
  if _shutdown_requested g then Some (ready stop_yes, g)
  else if negb (queue_empty (_blocked_requests g)) && execution_permitted g then
    g' ← execute_one g; Some (ready stop_no, g')
  else
    let '(now, c) := wait (_relief g) in
    Some (if now then ready stop_no else waits, set_relief c g).

(** States of the task (the future [_releaser]). *)
Inductive releaser_state := Running | Suspended | Terminated.

Definition after_iteration (i : iteration) : releaser_state :=
  match i with
  | ready stop_yes => Terminated
  | ready stop_no => Running
  | waits => Suspended
  end.

(** [region_group::region_group]: the group, and the task when one is
    started. *)
Definition make_region_group (name : string) (cfg : reclaim_config)
  : option releaser_state * region_group :=
  let g := mk_region_group cfg false 0 0 (mk_heap [] 0%nat)
             (mk_condvar false false) false (mk_queue name []) false [] in
  (if reclaimer_can_block g then Some Running else None, g).

(** [region_group::shutdown], up to the future it returns. *)
Definition shutdown (g : region_group) : region_group :=
  let g := set_shutdown_requested true g in
  signal_relief g.

(** The future returned by [shutdown] is [_releaser]: ready from the start
    when no task was started, and otherwise resolved when [repeat] ends. *)
Definition releaser_resolved (t : option releaser_state) : bool :=
  match t with
  | None => true
  | Some Terminated => true
  | Some _ => false
  end.

(** Requests the group has met: queued, executed or failed. *)
Definition request_of_event (e : event) : option request :=
  match e with
  | allocated r => Some r
  | failed r _ => Some r
  | _ => None
  end.

Definition known_requests (g : region_group) : list request :=
  (fst <$> fifo (_blocked_requests g)) ++ omap request_of_event (observed g).

(** What can happen to a group with a releaser: the task runs its loop
    body, a woken task resumes, or the surroundings call into the group.
    A request is a [unique_ptr]: the one enqueued is none the group has
    met before. *)
Inductive action :=
| act_iterate
| act_wake
| act_update (delta : Z)
| act_update_hard (delta : Z)
| act_enqueue (req : request) (expiry : option time_point)
| act_expire (now : time_point)
| act_shutdown.

Inductive step
  : releaser_state * region_group → action → releaser_state * region_group → Prop :=
| step_iterate g i g' :
    releaser_iteration g = Some (i, g') →
    step (Running, g) act_iterate (after_iteration i, g')
| step_wake g :
    has_waiter (_relief g) = false →
    step (Suspended, g) act_wake (Running, g)
| step_update t g delta :
    step (t, g) (act_update delta) (t, update delta g)
| step_update_hard t g delta :
    step (t, g) (act_update_hard delta) (t, update_hard delta g)
| step_enqueue t g req expiry :
    req ∉ known_requests g →
    step (t, g) (act_enqueue req expiry) (t, enqueue req expiry g)
| step_expire t g now :
    step (t, g) (act_expire now) (t, expire now g)
| step_shutdown t g :
    step (t, g) act_shutdown (t, shutdown g).

(** Runs: the actions taken, oldest first. *)
Inductive run
  : releaser_state * region_group → list action → releaser_state * region_group → Prop :=
| run_nil s : run s [] s
| run_snoc s acts s' a s'' :
    run s acts s' → step s' a s'' → run s (acts ++ [a]) s''.

(** The same, as functions: an action that is not enabled gives [None]. *)
Definition do_action (a : action) (s : releaser_state * region_group)
  : option (releaser_state * region_group) :=
  let '(t, g) := s in
  match a with
  | act_iterate =>
      match t with
      | Running =>
          match releaser_iteration g with
          | Some (i, g') => Some (after_iteration i, g')
          | None => None
          end
      | _ => None
      end
  | act_wake =>
      match t with
      | Suspended => if has_waiter (_relief g) then None else Some (Running, g)
      | _ => None
      end
  | act_update delta => Some (t, update delta g)
  | act_update_hard delta => Some (t, update_hard delta g)
  | act_enqueue req expiry =>
      if decide (req ∈ known_requests g) then None
      else Some (t, enqueue req expiry g)
  | act_expire now => Some (t, expire now g)
  | act_shutdown => Some (t, shutdown g)
  end.

Definition do_actions (acts : list action) (s : releaser_state * region_group)
  : option (releaser_state * region_group) :=
  foldl (λ o a, s' ← o; do_action a s') (Some s) acts.

(** What a step does to the queue and to the events, in four kinds. *)
Inductive queue_effect (g g' : region_group) : Prop :=
| effect_quiet evs :
    fifo (_blocked_requests g') = fifo (_blocked_requests g) →
    observed g' = observed g ++ evs →
    omap request_of_event evs = [] →
    queue_effect g g'
| effect_execute req expiry :
    fifo (_blocked_requests g) = (req, expiry) :: fifo (_blocked_requests g') →
    observed g' = observed g ++ [allocated req] →
    queue_effect g g'
| effect_enqueue req expiry :
    req ∉ known_requests g →
    fifo (_blocked_requests g') = fifo (_blocked_requests g) ++ [(req, expiry)] →
    observed g' = observed g →
    queue_effect g g'
| effect_expire now :
    fifo (_blocked_requests g')
    = filter (λ e, ¬ deadline_elapsed now e) (fifo (_blocked_requests g)) →
    observed g'
    = observed g
      ++ ((λ e, on_request_expiry (on_expiry_name (_blocked_requests g)) e.1)
          <$> filter (λ e, deadline_elapsed now e) (fifo (_blocked_requests g))) →
    queue_effect g g'.

(** ** Call sequences on the membership interface *)

(** Modelled from the spec: a region reports each change of its occupancy
    to the group it is registered in ([region_resized]: the total space of
    the region moves by [delta], and a registered region calls
    [update(delta)]); the reporting members are declared in the header. *)
Inductive group_call :=
| call_add (r : addr)
| call_del (r : addr)
| call_update (delta : Z)
| region_resized (r : addr) (delta : Z).

Definition resize (delta : Z) (x : size_tracked_region) : size_tracked_region :=
  mk_region
    (mk_occupancy (used_space (occupancy x))
                  (wrap_size (total_space (occupancy x) + delta)))
    (evictable_occupancy x) (_heap_handle x).

Definition do_call (c : group_call) (w : store * region_group)
  : option (store * region_group) :=
  match c with
  | call_add r => add r w
  | call_del r => del r w
  | call_update delta => Some (w.1, update delta w.2)
  | region_resized r delta =>
      x ← w.1 !! r;
      let mem := <[r := resize delta x]> w.1 in
      match _heap_handle x with
      | Some _ => Some (mem, update delta w.2)
      | None => Some (mem, w.2)
      end
  end.

Fixpoint do_calls (cs : list group_call) (w : store * region_group)
  : option (store * region_group) :=
  match cs with
  | [] => Some w
  | c :: cs' => w' ← do_call c w; do_calls cs' w'
  end.

Definition is_bare_update (c : group_call) : bool :=
  match c with
  | call_update _ => true
  | _ => false
  end.

(** Sum of the deltas handed to [update]. *)
Definition delta_of_event (e : event) : Z :=
  match e with
  | delta_applied d => d
  | _ => 0
  end.

Definition sum_Z (l : list Z) : Z := foldr Z.add 0 l.

Definition deltas_applied (g : region_group) : Z :=
  sum_Z (delta_of_event <$> observed g).

(** Sum of [occupancy().total_space()] over the registered regions. *)
Definition registered_space (mem : store) (g : region_group) : Z :=
  sum_Z ((λ e, region_total_space mem e.2) <$> entries (_regions g)).

(** Events a call added: those of [after] beyond those of [before]. *)
Definition new_events (before after : region_group) : list event :=
  drop (length (observed before)) (observed after).

(** Number of calls of [_relief.signal()] among events. *)
Definition relief_signals (l : list event) : nat :=
  length (filter (λ e, e = relief_signalled) l).

(** ** Sequences of calls *)

(** [k] calls of [allocation_queue::execute_one] in a row. *)
Fixpoint execute_many (k : nat) (g : region_group) : option region_group :=
  match k with
  | O => Some g
  | S k' => g' ← execute_one g; execute_many k' g'
  end.

(** The calls [update(d)] for the [d] of a list, first to last. *)
Definition updates (ds : list Z) (g : region_group) : region_group :=
  foldl (λ g d, update d g) g ds.

(** The counters and the two latched flags. *)
Definition pressure_state (g : region_group) : Z * Z * bool * bool :=
  (_total_memory g, _hard_total_memory g, _under_pressure g,
   _under_hard_pressure g).

(** The requests whose [allocate()] ran, oldest first. *)
Definition executed_of (evs : list event) : list request :=
  omap (λ e, match e with allocated r => Some r | _ => None end) evs.

Definition executed (g : region_group) : list request :=
  executed_of (observed g).

(** The soft notifications among events. *)
Definition soft_notifications (evs : list event) : list event :=
  filter (λ e, e = soft_pressure_notified ∨ e = soft_relief_notified) evs.

(** ** Sample configurations *)

(** Thresholds 500 / 1000 / 2000 and three regions, none registered. *)
Definition sample_cfg : reclaim_config := mk_reclaim_config 500 1000 2000.

Definition sample_group : region_group :=
  (make_region_group "dirty" sample_cfg).2.

Definition sample_region (total evictable : Z) : size_tracked_region :=
  mk_region (mk_occupancy total total) (mk_occupancy evictable evictable) None.

Definition sample_store : store :=
  <[1%N := sample_region 600 100]>
    (<[2%N := sample_region 300 250]>
       (<[3%N := sample_region 50 400]> ∅)).

Definition the_world (o : option (store * region_group))
  : store * region_group :=
  default (∅, sample_group) o.

Definition the_state (o : option (releaser_state * region_group))
  : releaser_state * region_group :=
  default (Running, sample_group) o.

(** Regions 1 and 2 registered, region 3 not. *)
Definition registered_world : store * region_group :=
  the_world (do_calls [call_add 1%N; call_add 2%N] (sample_store, sample_group)).

(** Region 1 grown by 50 and removed, region 2 shrunk by 100, region 3
    grown without being registered. *)
Definition registered_world_resized : store * region_group :=
  the_world
    (do_calls [call_add 1%N; region_resized 1%N 50; call_add 2%N;
               region_resized 3%N 10; call_del 1%N; region_resized 2%N (-100)]
       (sample_store, sample_group)).

(** A request executed, the task suspended, then shut down. *)
Definition released_group : region_group :=
  (the_state
     (do_actions [act_enqueue 7%nat None; act_iterate; act_iterate;
                  act_shutdown; act_wake; act_iterate]
        (Running, sample_group))).2.

(** Two requests queued behind throttle pressure, the task suspended. *)
Definition blocked_group : region_group :=
  (the_state
     (do_actions [act_enqueue 7%nat (Some 100); act_enqueue 8%nat None;
                  act_update 1500; act_iterate]
        (Running, sample_group))).2.

(** The same after expiry at time 150 and relief. *)
Definition drained_group : region_group :=
  (the_state
     (do_actions [act_update (-1500); act_wake; act_iterate; act_iterate]
        (Suspended, expire 150 blocked_group))).2.

(** Two requests queued, nothing in the way. *)
Definition queued_group : region_group :=
  (the_state
     (do_actions [act_enqueue 7%nat None; act_enqueue 8%nat (Some 100)]
        (Running, sample_group))).2.

(** [blocked_group] shut down, its task ended, then relieved. *)
Definition shut_group : region_group :=
  (the_state
     (do_actions [act_wake; act_iterate; act_update (-1500)]
        (Suspended, shutdown blocked_group))).2.

(** No threshold set. *)
Definition unlimited_cfg : reclaim_config :=
  mk_reclaim_config size_max size_max size_max.

(** The group after [update(600)] and [update(500)]: above the throttle
    threshold. *)
Definition pressured_group : region_group :=
  update 500 (update 600 sample_group).

(** Every threshold at 1000. *)
Definition level_group : region_group :=
  (make_region_group "dirty" (mk_reclaim_config 1000 1000 1000)).2.



(** The soft limit at 500 below the two throttle thresholds at 1000. *)
Definition tiered_group : region_group :=
  (make_region_group "dirty" (mk_reclaim_config 500 1000 1000)).2.

(** A sequence from the top down: no element has more evictable space than
    one before it. *)
Fixpoint descending (mem : store) (l : list (handle_type * addr)) : Prop :=
  match l with
  | [] => True
  | e :: l' =>
      Forall (λ e', region_evictable_space mem e'.2
                    ≤ region_evictable_space mem e.2) l'
      ∧ descending mem l'
  end.

(** Modelled from the spec: [l] is an ordered iteration of the priority
    structure when it visits every entry once and no entry has more
    evictable space than one visited before it.  Entries of equal evictable
    space may come in either order. *)
Definition ordered_iteration (mem : store) (h : region_heap)
    (l : list (handle_type * addr)) : Prop :=
  l ≡ₚ entries h ∧ descending mem l.


(** Store and priority structure agree on who is registered: an entry's
    region holds the entry's handle, a held handle has its entry, and no
    handle is used twice or ahead of [next_handle]. *)
Definition registered_consistent (mem : store) (h : region_heap) : Prop :=
  (∀ hd r, (hd, r) ∈ entries h → region_heap_handle mem r = Some hd)
  ∧ (∀ r hd, region_heap_handle mem r = Some hd → (hd, r) ∈ entries h)
  ∧ NoDup (entries h).*1
  ∧ (∀ hd r, (hd, r) ∈ entries h → (hd < next_handle h)%nat).

(** * Properties *)

(** Unfolds the pressure operations down to the fields of the group. *)
Ltac unfold_group :=
  cbv beta iota zeta delta
    [update update_hard do_update_hard_and_check_relief
     notify_pressure_relieved signal_relief notify_soft_pressure
     notify_soft_relief notify_pressure notify_relief under_pressure
     execution_permitted
     set_under_pressure set_total_memory set_hard_total_memory set_regions
     set_relief set_under_hard_pressure set_blocked_requests
     set_shutdown_requested emit
     _cfg _under_pressure _total_memory _hard_total_memory _regions _relief
     _under_hard_pressure _blocked_requests _shutdown_requested observed
     fst snd orb andb negb].

(** ** Pressure state machine *)

Section pressure.
Implicit Types (g : region_group) (delta : Z).


Lemma new_events_app g g' l :
  observed g' = observed g ++ l → new_events g g' = l.
Proof.
  intros H. unfold new_events. rewrite H. apply drop_app_length.
Qed.

(** The hard helper, case by case. *)
Lemma do_update_hard_cases delta g :
  let hard := wrap_size (_hard_total_memory g + delta) in
  do_update_hard_and_check_relief delta g =
    if hard >? hard_throttle_threshold (_cfg g) then
      (false, set_under_hard_pressure true (set_hard_total_memory hard g))
    else if _under_hard_pressure g then
      (true, set_under_hard_pressure false (set_hard_total_memory hard g))
    else (false, set_hard_total_memory hard g).
Proof. reflexivity. Qed.

Lemma do_update_hard_spec delta g :
  let r := (do_update_hard_and_check_relief delta g).1 in
  let g' := (do_update_hard_and_check_relief delta g).2 in
  _hard_total_memory g' = wrap_size (_hard_total_memory g + delta)
  ∧ _under_hard_pressure g' =
      (_hard_total_memory g' >? hard_throttle_threshold (_cfg g'))
  ∧ r = _under_hard_pressure g && negb (_under_hard_pressure g').
Proof.
  cbv zeta. rewrite do_update_hard_cases. cbv zeta.
  destruct (_ >? _) eqn:Hcmp; [|destruct (_under_hard_pressure g) eqn:Hp];
    simpl; rewrite ?Hcmp, ?Hp; auto using andb_false_r.
Qed.

(** What one [update] leaves behind, field by field. *)
Lemma update_spec delta g :
  let g' := update delta g in
  let total := wrap_size (_total_memory g + delta) in
  let hard := wrap_size (_hard_total_memory g + delta) in
  let relief :=
    negb (total >? throttle_threshold (_cfg g)) && _under_pressure g
    || negb (hard >? hard_throttle_threshold (_cfg g))
       && _under_hard_pressure g in
  _cfg g' = _cfg g
  ∧ _total_memory g' = total
  ∧ _hard_total_memory g' = hard
  ∧ _under_pressure g' = (total >? throttle_threshold (_cfg g))
  ∧ _under_hard_pressure g' = (hard >? hard_throttle_threshold (_cfg g))
  ∧ observed g' =
      observed g
      ++ [delta_applied delta;
          if total >? soft_limit_threshold (_cfg g)
          then soft_pressure_notified else soft_relief_notified]
      ++ (if relief then [relief_signalled] else [])
  ∧ _relief g' = (if relief then signal (_relief g) else _relief g)
  ∧ _regions g' = _regions g
  ∧ _blocked_requests g' = _blocked_requests g
  ∧ _shutdown_requested g' = _shutdown_requested g.
Proof.
  destruct g as [cfg up tm htm rg rl uhp q sd obs].
  unfold_group.
  destruct (wrap_size (tm + delta) >? soft_limit_threshold cfg);
    destruct (wrap_size (tm + delta) >? throttle_threshold cfg);
    destruct up; unfold_group;
    destruct (wrap_size (htm + delta) >? hard_throttle_threshold cfg);
    destruct uhp; unfold_group; rewrite <- ?app_assoc; simpl;
    rewrite ?app_nil_r; auto 12.
Qed.

Lemma update_hard_spec delta g :
  let g' := update_hard delta g in
  let hard := wrap_size (_hard_total_memory g + delta) in
  let relief :=
    negb (hard >? hard_throttle_threshold (_cfg g))
    && _under_hard_pressure g in
  _cfg g' = _cfg g
  ∧ _total_memory g' = _total_memory g
  ∧ _hard_total_memory g' = hard
  ∧ _under_pressure g' = _under_pressure g
  ∧ _under_hard_pressure g' = (hard >? hard_throttle_threshold (_cfg g))
  ∧ observed g' =
      observed g ++ (if relief then [relief_signalled] else [])
  ∧ _relief g' = (if relief then signal (_relief g) else _relief g)
  ∧ _regions g' = _regions g
  ∧ _blocked_requests g' = _blocked_requests g
  ∧ _shutdown_requested g' = _shutdown_requested g.
Proof.
  destruct g as [cfg up tm htm rg rl uhp q sd obs].
  unfold_group.
  destruct (wrap_size (htm + delta) >? hard_throttle_threshold cfg);
    destruct uhp; unfold_group; rewrite ?app_nil_r; auto 12.
Qed.

Lemma relief_signals_of_update delta (soft relief : bool) :
  relief_signals
    ([delta_applied delta;
      if soft then soft_pressure_notified else soft_relief_notified]
     ++ (if relief then [relief_signalled] else []))
  = (if relief then 1 else 0)%nat.
Proof. by destruct soft, relief. Qed.

(** C2: [execution_permitted()] is true exactly when the group is neither
    under throttle pressure nor under hard pressure. *)
Theorem execution_permitted_iff g :
  execution_permitted g = true
  ↔ under_pressure g = false ∧ _under_hard_pressure g = false.
Proof.
  unfold execution_permitted.
  destruct (under_pressure g), (_under_hard_pressure g); simpl; intuition.
Qed.

(** C4: [do_update_hard_and_check_relief] adds [delta] to
    [_hard_total_memory] (as a [size_t]), leaves [_under_hard_pressure] equal
    to the comparison of the new sum with [hard_throttle_threshold], and
    returns true exactly when the flag went from set to clear in this call,
    so never when it was clear on entry; after [update] and after
    [update_hard] the flag is the comparison made by that call. *)
Theorem hard_pressure_latch delta g :
  let r := (do_update_hard_and_check_relief delta g).1 in
  let g' := (do_update_hard_and_check_relief delta g).2 in
  (_hard_total_memory g' = wrap_size (_hard_total_memory g + delta)
   ∧ _under_hard_pressure g' =
       (_hard_total_memory g' >? hard_throttle_threshold (_cfg g'))
   ∧ (r = true
      ↔ _under_hard_pressure g = true ∧ _under_hard_pressure g' = false)
   ∧ (_under_hard_pressure g = false → r = false))
  ∧ _under_hard_pressure (update delta g) =
      (_hard_total_memory (update delta g)
       >? hard_throttle_threshold (_cfg (update delta g)))
  ∧ _under_hard_pressure (update_hard delta g) =
      (_hard_total_memory (update_hard delta g)
       >? hard_throttle_threshold (_cfg (update_hard delta g))).
Proof.
  cbv zeta. split; [|split].
  - pose proof (do_update_hard_spec delta g) as H. cbv zeta in H.
    destruct H as (Hsum & Hflag & Hr).
    split; [done|]. split; [done|]. rewrite Hr.
    destruct (_under_hard_pressure g),
      (_under_hard_pressure (do_update_hard_and_check_relief delta g).2);
      simpl; intuition.
  - destruct (update_spec delta g) as (-> & _ & -> & _ & -> & _). done.
  - destruct (update_hard_spec delta g) as (-> & _ & -> & _ & -> & _). done.
Qed.

(** C1: one [update(delta)] signals the relief condition at most once.
    When throttle pressure or hard pressure went from set to clear in that
    call, [_relief] is left as one [signal()] leaves it (a suspended waiter
    is woken, otherwise the signal is kept for the next wait) and one signal
    is recorded, also when both went clear together; otherwise [_relief] is
    as it was and none is recorded.  An update entered with both clear does
    not signal. *)
Theorem update_signals_relief_once delta g :
  let g' := update delta g in
  let signals := relief_signals (new_events g g') in
  let relieved :=
    (under_pressure g = true ∧ under_pressure g' = false)
    ∨ (_under_hard_pressure g = true ∧ _under_hard_pressure g' = false) in
  (signals ≤ 1)%nat
  ∧ (signals = 1%nat ↔ relieved)
  ∧ (under_pressure g = false → _under_hard_pressure g = false
     → signals = 0%nat)
  ∧ (relieved
     → _relief g' = signal (_relief g)
       ∧ has_waiter (_relief g') = false
       ∧ (has_waiter (_relief g) = false → signalled (_relief g') = true))
  ∧ (¬ relieved → _relief g' = _relief g)
  ∧ (under_pressure g = false → _under_hard_pressure g = false
     → _relief g' = _relief g).
Proof.
  cbv zeta. unfold under_pressure.
  destruct (update_spec delta g) as (_ & _ & _ & -> & -> & Hobs & -> & _).
  rewrite (new_events_app _ _ _ Hobs), relief_signals_of_update.
  assert (has_waiter (signal (_relief g)) = false) as Hwoken.
  { unfold signal. by destruct (has_waiter (_relief g)). }
  assert (has_waiter (_relief g) = false
          → signalled (signal (_relief g)) = true) as Hkept.
  { unfold signal. by intros ->. }
  destruct (_ >? throttle_threshold _), (_ >? hard_throttle_threshold _),
    (_under_pressure g), (_under_hard_pressure g); simpl;
    (split; [lia|]); (split; [split; try done; try tauto;
                               intros [[? ?]|[? ?]]; done|]);
    (split; [done|]);
    (split; [first [done | intros [[? ?]|[? ?]]; done]|]);
    (split; [first [done | intros Hno; exfalso; apply Hno; tauto]|done]).
Qed.

(** C10, as the code has it: the three comparisons are strict, each against
    its own threshold.  An [update] that leaves [_total_memory] equal to
    [soft_limit_threshold] issues the soft relief notification and not the
    soft pressure one; one that leaves it equal to [throttle_threshold]
    leaves throttle pressure clear; one that leaves [_hard_total_memory]
    equal to [hard_throttle_threshold] leaves hard pressure clear (also
    through [update_hard]); with both of the latter,
    [execution_permitted()] is true afterwards, whatever the state on
    entry.  With [_total_memory] left equal to [throttle_threshold] the soft
    notification is the relief one only when the soft limit is not below the
    throttle threshold. *)
Theorem thresholds_are_strict delta g :
  let g' := update delta g in
  (_total_memory g' = soft_limit_threshold (_cfg g)
   → soft_relief_notified ∈ new_events g g'
     ∧ soft_pressure_notified ∉ new_events g g')
  ∧ (_total_memory g' = throttle_threshold (_cfg g)
     → under_pressure g' = false)
  ∧ (_hard_total_memory g' = hard_throttle_threshold (_cfg g)
     → _under_hard_pressure g' = false)
  ∧ (_total_memory g' = throttle_threshold (_cfg g)
     → _hard_total_memory g' = hard_throttle_threshold (_cfg g)
     → execution_permitted g' = true)
  ∧ (_hard_total_memory (update_hard delta g) = hard_throttle_threshold (_cfg g)
     → _under_hard_pressure (update_hard delta g) = false)
  ∧ (_total_memory g' = throttle_threshold (_cfg g)
     → (soft_relief_notified ∈ new_events g g'
        ↔ throttle_threshold (_cfg g) ≤ soft_limit_threshold (_cfg g))).
Proof.
  cbv zeta. unfold execution_permitted, under_pressure.
  destruct (update_spec delta g) as (_ & -> & -> & -> & -> & Hobs & _).
  destruct (update_hard_spec delta g) as (_ & _ & -> & _ & -> & _).
  rewrite (new_events_app _ _ _ Hobs).
  split; [|repeat split].
  - intros ->. rewrite Z.gtb_ltb, Z.ltb_irrefl. split.
    + rewrite elem_of_app, !elem_of_cons. auto.
    + intros [Hin|Hin]%elem_of_app.
      * apply elem_of_cons in Hin as [?|Hin]; [done|].
        by apply list_elem_of_singleton in Hin.
      * match type of Hin with _ ∈ (if ?b then _ else _) => destruct b end;
          [by apply list_elem_of_singleton in Hin|by apply elem_of_nil in Hin].
  - intros ->. by rewrite Z.gtb_ltb, Z.ltb_irrefl.
  - intros ->. by rewrite Z.gtb_ltb, Z.ltb_irrefl.
  - intros -> ->. by rewrite !Z.gtb_ltb, !Z.ltb_irrefl.
  - intros ->. by rewrite Z.gtb_ltb, Z.ltb_irrefl.
  - rewrite H. destruct (Z.gtb_spec (throttle_threshold (_cfg g))
                           (soft_limit_threshold (_cfg g))) as [Hgt|Hle];
      [|done].
    intros [Hin|Hin]%elem_of_app.
    + apply elem_of_cons in Hin as [?|Hin]; [done|].
      by apply list_elem_of_singleton in Hin.
    + match type of Hin with _ ∈ (if ?b then _ else _) => destruct b end;
        [by apply list_elem_of_singleton in Hin|by apply elem_of_nil in Hin].
  - intros Hle. rewrite H.
    destruct (Z.gtb_spec (throttle_threshold (_cfg g))
                (soft_limit_threshold (_cfg g))) as [Hgt|_]; [lia|].
    rewrite elem_of_app, !elem_of_cons. auto.
Qed.

End pressure.

(** ** The priority structure *)

Section heap.
Implicit Types (mem : store) (h : region_heap) (r : addr).

Lemma pick_top_is_Some lt acc r : is_Some (pick_top lt acc r).
Proof. destruct acc as [b|]; simpl; [destruct (lt b r)|]; eauto. Qed.

Lemma foldl_pick_top_is_Some lt b l : is_Some (foldl (pick_top lt) (Some b) l).
Proof.
  revert b. induction l as [|r l IH]; intros b; simpl; [eauto|].
  destruct (lt b r); apply IH.
Qed.

(** Scanning from a current best [b]: the result is [b] or a scanned
    element, and nothing met is above it. *)
Lemma foldl_pick_top_max mem b l t :
  foldl (pick_top (region_evictable_occupancy_ascending_less_comparator mem))
        (Some b) l = Some t →
  (t = b ∨ t ∈ l)
  ∧ region_evictable_space mem b ≤ region_evictable_space mem t
  ∧ ∀ r, r ∈ l → region_evictable_space mem r ≤ region_evictable_space mem t.
Proof.
  revert b. induction l as [|x l IH]; intros b; simpl.
  - intros [= ->]. split; [by left|]. split; [lia|]. by intros r ?%elem_of_nil.
  - unfold region_evictable_occupancy_ascending_less_comparator at 2.
    destruct (Z.ltb_spec (region_evictable_space mem b)
                (region_evictable_space mem x)) as [Hlt|Hge]; intros Ht;
      destruct (IH _ Ht) as (Hin & Hb & Hall).
    + split; [right; rewrite elem_of_cons; tauto|]. split; [lia|].
      intros r [->|?]%elem_of_cons; auto.
    + split; [rewrite elem_of_cons; tauto|]. split; [lia|].
      intros r [->|?]%elem_of_cons; [lia|auto].
Qed.

Lemma heap_top_max mem h t :
  heap_top mem h = Some t →
  t ∈ (entries h).*2
  ∧ ∀ r, r ∈ (entries h).*2 →
      region_evictable_space mem r ≤ region_evictable_space mem t.
Proof.
  unfold heap_top. destruct ((entries h).*2) as [|b l]; simpl; [done|].
  intros (Hin & Hb & Hall)%foldl_pick_top_max. split.
  - rewrite elem_of_cons. tauto.
  - intros r [->|?]%elem_of_cons; auto.
Qed.

Lemma heap_top_nonempty mem h :
  entries h ≠ [] → is_Some (heap_top mem h).
Proof.
  unfold heap_top. destruct (entries h) as [|[hd b] l]; [done|]. intros _.
  simpl. apply foldl_pick_top_is_Some.
Qed.

Lemma heap_empty_spec h : heap_empty h = true ↔ entries h = [].
Proof. unfold heap_empty. by destruct (entries h). Qed.

(** A pushed element that is above everything present becomes the top. *)
Lemma foldl_pick_top_snoc lt acc l r :
  foldl (pick_top lt) acc (l ++ [r]) = pick_top lt (foldl (pick_top lt) acc l) r.
Proof. by rewrite foldl_app. Qed.

Lemma heap_top_push_larger mem h r :
  (∀ r', r' ∈ (entries h).*2 →
     region_evictable_space mem r' < region_evictable_space mem r) →
  heap_top mem (heap_push r h).2 = Some r.
Proof.
  intros Hall. unfold heap_top, heap_push. cbn [snd entries].
  rewrite fmap_app. cbn [fmap list_fmap snd]. rewrite foldl_pick_top_snoc.
  destruct (foldl _ None _) as [b|] eqn:Hb; simpl; [|done].
  assert (b ∈ (entries h).*2) as Hin.
  { destruct ((entries h).*2) as [|b0 l]; simpl in Hb; [done|].
    apply foldl_pick_top_max in Hb as ([->|?] & _); rewrite elem_of_cons; tauto. }
  unfold region_evictable_occupancy_ascending_less_comparator.
  apply Hall in Hin. by rewrite (proj2 (Z.ltb_lt _ _) Hin).
Qed.

(** Writing a handle does not change what a region occupies. *)
Lemma region_evictable_space_insert_handle mem r x hd r' :
  mem !! r = Some x →
  region_evictable_space (<[r := with_heap_handle hd x]> mem) r'
  = region_evictable_space mem r'.
Proof.
  intros Hx. unfold region_evictable_space.
  destruct (decide (r = r')) as [<-|Hne].
  - by rewrite lookup_insert_eq, Hx.
  - by rewrite lookup_insert_ne.
Qed.

Lemma region_total_space_insert_handle mem r x hd r' :
  mem !! r = Some x →
  region_total_space (<[r := with_heap_handle hd x]> mem) r'
  = region_total_space mem r'.
Proof.
  intros Hx. unfold region_total_space.
  destruct (decide (r = r')) as [<-|Hne].
  - by rewrite lookup_insert_eq, Hx.
  - by rewrite lookup_insert_ne.
Qed.

Lemma heap_top_ext mem mem' h :
  (∀ r, region_evictable_space mem' r = region_evictable_space mem r) →
  heap_top mem' h = heap_top mem h.
Proof.
  intros Heq. unfold heap_top.
  generalize (@None addr). induction ((entries h).*2) as [|x l IH]; [done|].
  intros acc. simpl. rewrite <- IH. f_equal.
  destruct acc as [b|]; simpl; [|done].
  unfold region_evictable_occupancy_ascending_less_comparator.
  by rewrite !Heq.
Qed.

Lemma NoDup_fst_functional {A B} (xs : list (A * B)) (k : A) (v v' : B) :
  NoDup xs.*1 → (k, v) ∈ xs → (k, v') ∈ xs → v = v'.
Proof.
  induction xs as [|x xs IH]; [by intros _ ?%elem_of_nil|].
  rewrite fmap_cons.
  intros [Hfresh Hnd]%NoDup_cons [E1|H1]%elem_of_cons [E2|H2]%elem_of_cons.
  - congruence.
  - subst x. exfalso. apply Hfresh, list_elem_of_fmap. by exists (k, v').
  - subst x. exfalso. apply Hfresh, list_elem_of_fmap. by exists (k, v).
  - by apply IH.
Qed.

End heap.

(** ** Membership operations *)

Section membership.
Implicit Types (mem : store) (g : region_group) (r : addr).

Lemma add_spec r mem g mem' g' :
  add r (mem, g) = Some (mem', g') →
  ∃ x, mem !! r = Some x ∧ _heap_handle x = None
    ∧ mem' = <[r := with_heap_handle (Some (next_handle (_regions g))) x]> mem
    ∧ g' = update (to_ssize (total_space (occupancy x)))
             (set_regions (heap_push r (_regions g)).2 g).
Proof.
  unfold add. destruct (mem !! r) as [x|] eqn:Hx; simpl; [|done].
  destruct (_heap_handle x) eqn:Hh; [done|]. intros [= <- <-]. eauto.
Qed.

Lemma del_spec r mem g mem' g' :
  del r (mem, g) = Some (mem', g') →
  ∃ x, mem !! r = Some x
    ∧ match _heap_handle x with
      | Some hd =>
          mem' = <[r := with_heap_handle None x]> mem
          ∧ g' = update (to_ssize (wrap_size (- total_space (occupancy x))))
                   (set_regions (heap_erase hd (_regions g)) g)
      | None => mem' = mem ∧ g' = g
      end.
Proof.
  unfold del. destruct (mem !! r) as [x|] eqn:Hx; simpl; [|done].
  destruct (_heap_handle x) eqn:Hh; intros [= <- <-]; exists x;
    rewrite Hh; auto.
Qed.

Lemma moved_spec old new mem g mem' g' :
  moved old new (mem, g) = Some (mem', g') →
  ∃ x, mem !! old = Some x ∧ is_Some (mem !! new)
    ∧ let kept :=
        match _heap_handle x with
        | Some hd => filter (λ e, e.1 ≠ hd) (entries (_regions g))
        | None => entries (_regions g)
        end in
      let hd' := next_handle (_regions g) in
      mem' = <[old := with_heap_handle (Some hd') x]> mem
      ∧ g' = set_regions (mk_heap (kept ++ [(hd', new)]) (S hd')) g.
Proof.
  unfold moved. destruct (mem !! old) as [x|] eqn:Hx; simpl; [|done].
  destruct (_heap_handle x) as [hd|] eqn:Hh.
  - destruct (decide (old = new)) as [<-|Hne].
    + rewrite lookup_insert_eq. simpl. intros [= <- <-]. exists x.
      rewrite Hx, Hh. split; [done|]. split; [eauto|]. simpl. split; [|done].
      apply map_eq. intros i. destruct (decide (old = i)) as [<-|].
      * by rewrite lookup_alter_eq, !lookup_insert_eq.
      * by rewrite lookup_alter_ne, !lookup_insert_ne.
    + rewrite lookup_insert_ne by done.
      destruct (mem !! new) as [y|] eqn:Hy; simpl; [|done].
      intros [= <- <-]. exists x. rewrite Hh. split; [done|]. split; [eauto|].
      simpl. split; [|done].
      apply map_eq. intros i. destruct (decide (old = i)) as [<-|].
      * by rewrite lookup_alter_eq, !lookup_insert_eq.
      * by rewrite lookup_alter_ne, !lookup_insert_ne.
  - destruct (mem !! new) as [y|] eqn:Hy; simpl; [|done].
    intros [= <- <-]. exists x. rewrite Hh. split; [done|]. split; [eauto|].
    simpl. split; [|done].
    apply map_eq. intros i. destruct (decide (old = i)) as [<-|].
    + by rewrite lookup_alter_eq, lookup_insert_eq, Hx.
    + by rewrite lookup_alter_ne, lookup_insert_ne.
Qed.

Lemma update_regions delta g : _regions (update delta g) = _regions g.
Proof. by destruct (update_spec delta g) as (_&_&_&_&_&_&_&?&_). Qed.

(** C8: with no registered region [top_region_evictable_space()] is 0 and
    [get_largest_region()] is null; otherwise [get_largest_region()] is a
    registered region, [top_region_evictable_space()] is its evictable space
    and no registered region has more; and a region added with more
    evictable space than every registered one is the next peek result. *)
Theorem peek_returns_largest mem g :
  (entries (_regions g) = [] →
   top_region_evictable_space mem g = 0 ∧ get_largest_region mem g = None)
  ∧ (entries (_regions g) ≠ [] →
     ∃ t, get_largest_region mem g = Some t
       ∧ t ∈ (entries (_regions g)).*2
       ∧ top_region_evictable_space mem g = region_evictable_space mem t
       ∧ ∀ r, r ∈ (entries (_regions g)).*2 →
           region_evictable_space mem r ≤ top_region_evictable_space mem g)
  ∧ (∀ r mem' g',
       add r (mem, g) = Some (mem', g') →
       (∀ r', r' ∈ (entries (_regions g)).*2 →
          region_evictable_space mem r' < region_evictable_space mem r) →
       get_largest_region mem' g' = Some r
       ∧ top_region_evictable_space mem' g' = region_evictable_space mem r).
Proof.
  unfold top_region_evictable_space, get_largest_region.
  split; [|split].
  - intros H. by rewrite (proj2 (heap_empty_spec _) H).
  - intros Hne. destruct (heap_empty (_regions g)) eqn:He.
    { by apply heap_empty_spec in He. }
    destruct (heap_top_nonempty mem _ Hne) as [t Ht].
    destruct (heap_top_max _ _ _ Ht) as [Hin Hmax].
    exists t. rewrite Ht. auto.
  - intros r mem' g' (x & Hx & Hh & -> & ->)%add_spec Hall.
    rewrite update_regions. cbn [_regions set_regions].
    assert (heap_empty (heap_push r (_regions g)).2 = false) as ->.
    { unfold heap_empty, heap_push. simpl. by destruct (entries (_regions g)). }
    assert (heap_top
              (<[r:=with_heap_handle (Some (next_handle (_regions g))) x]> mem)
              (heap_push r (_regions g)).2 = Some r) as ->.
    { rewrite (heap_top_ext mem).
      - by apply heap_top_push_larger.
      - intros r'. by apply region_evictable_space_insert_handle. }
    split; [done|]. by apply region_evictable_space_insert_handle.
Qed.

(** C3 (as the code has it): when [old] holds a handle, [moved(old, new)]
    removes the entry of [old], inserts [new] and stores the new handle on
    [old]; it writes no other region object, so the handle of a distinct
    [new] stays as it was (the move constructor or assignment of the region
    carries it over afterwards). *)
Theorem moved_reinserts_and_keeps_handle_on_old old new hd mem g mem' g' :
  region_heap_handle mem old = Some hd →
  moved old new (mem, g) = Some (mem', g') →
  let hd' := next_handle (_regions g) in
  entries (_regions g') =
    filter (λ e, e.1 ≠ hd) (entries (_regions g)) ++ [(hd', new)]
  ∧ region_heap_handle mem' old = Some hd'
  ∧ (∀ r, r ≠ old → mem' !! r = mem !! r)
  ∧ (new ≠ old → region_heap_handle mem' new = region_heap_handle mem new).
Proof.
  intros Hhd (x & Hx & _ & Hmem & Hg)%moved_spec. cbv zeta in *. subst mem' g'.
  unfold region_heap_handle in *. rewrite Hx in Hhd. rewrite Hhd.
  rewrite lookup_insert_eq. simpl.
  repeat split; try done.
  - intros r Hne. by rewrite lookup_insert_ne.
  - intros Hne. by rewrite lookup_insert_ne.
Qed.

(** The insertion is outside the test of the handle: it also happens for
    an [old] without one. *)
Lemma moved_without_handle old new mem g mem' g' :
  region_heap_handle mem old = None →
  moved old new (mem, g) = Some (mem', g') →
  entries (_regions g')
  = entries (_regions g) ++ [(next_handle (_regions g), new)]
  ∧ region_heap_handle mem' old = Some (next_handle (_regions g)).
Proof.
  intros Hhd (x & Hx & _ & Hmem & Hg)%moved_spec. cbv zeta in *. subst mem' g'.
  unfold region_heap_handle in *. rewrite Hx in Hhd. rewrite Hhd.
  by rewrite lookup_insert_eq.
Qed.

End membership.

(** ** Ordered iteration *)

Section ordered.
Implicit Types (mem : store) (e : handle_type * addr)
  (l : list (handle_type * addr)).

Lemma elem_of_ordered_insert mem e l e' :
  e' ∈ ordered_insert mem e l ↔ e' = e ∨ e' ∈ l.
Proof.
  induction l as [|x l IH]; simpl.
  - rewrite list_elem_of_singleton, elem_of_nil. tauto.
  - destruct (region_evictable_occupancy_ascending_less_comparator _ _ _).
    + rewrite !elem_of_cons, IH. tauto.
    + rewrite !elem_of_cons. tauto.
Qed.

Lemma descending_ordered_insert mem e l :
  descending mem l → descending mem (ordered_insert mem e l).
Proof.
  induction l as [|x l IH]; simpl; [by auto|]. intros [Hx Hl].
  unfold region_evictable_occupancy_ascending_less_comparator.
  destruct (Z.ltb_spec (region_evictable_space mem e.2)
              (region_evictable_space mem x.2)) as [Hlt|Hge]; simpl.
  - split; [|by apply IH]. apply Forall_forall.
    intros e' [->|Hin]%elem_of_ordered_insert; [lia|].
    by apply (proj1 (Forall_forall _ _) Hx).
  - split; [|done]. apply Forall_cons. split; [done|].
    eapply Forall_impl; [exact Hx|]. simpl. intros. lia.
Qed.

Lemma descending_heap_ordered mem h : descending mem (heap_ordered mem h).
Proof.
  unfold heap_ordered. induction (entries h) as [|e l IH]; simpl; [done|].
  by apply descending_ordered_insert.
Qed.

Lemma ordered_insert_Permutation mem e l : ordered_insert mem e l ≡ₚ e :: l.
Proof.
  induction l as [|x l IH]; simpl; [done|].
  destruct (region_evictable_occupancy_ascending_less_comparator _ _ _);
    [|done].
  rewrite IH. apply Permutation_swap.
Qed.

(** [heap_ordered] is one of the ordered iterations. *)
Lemma heap_ordered_iteration mem h : ordered_iteration mem h (heap_ordered mem h).
Proof.
  split; [|apply descending_heap_ordered]. unfold heap_ordered.
  induction (entries h) as [|e l IH]; simpl; [done|].
  by rewrite ordered_insert_Permutation, IH.
Qed.








(** The scan of the debug check passes on every ordered iteration whose
    values fit a [size_t]. *)
Lemma sanity_scan_descending mem last l :
  Forall (λ e, region_evictable_space mem e.2 ≤ last) l →
  descending mem l → sanity_scan mem last l = true.
Proof.
  revert last. induction l as [|e l IH]; intros last; simpl; [done|].
  intros [Hle _]%Forall_cons [He Hl].
  rewrite (proj2 (Z.leb_le _ _) Hle). simpl. by apply IH.
Qed.

Lemma sanity_check_passes mem bh :
  (∀ r, region_evictable_space mem r ≤ size_max) →
  region_group_binomial_group_sanity_check mem bh = true.
Proof.
  intros Hfit. apply sanity_scan_descending.
  - apply Forall_forall. intros e _. apply Hfit.
  - apply descending_heap_ordered.
Qed.


End ordered.

(** ** Accounting of [_total_memory] *)

Section accounting.
Implicit Types (mem : store) (g : region_group) (r : addr)
  (l : list (handle_type * addr)).

Lemma size_modulus_pos : 0 < size_modulus.
Proof. reflexivity. Qed.

Lemma wrap_size_add_l a b : wrap_size (wrap_size a + b) = wrap_size (a + b).
Proof. unfold wrap_size. apply Z.add_mod_idemp_l. pose size_modulus_pos. lia. Qed.

Lemma wrap_size_add_r a b : wrap_size (a + wrap_size b) = wrap_size (a + b).
Proof. unfold wrap_size. apply Z.add_mod_idemp_r. pose size_modulus_pos. lia. Qed.

Lemma wrap_size_to_ssize a b : wrap_size (a + to_ssize b) = wrap_size (a + b).
Proof.
  unfold to_ssize. cbv zeta. destruct (_ <? _).
  - apply wrap_size_add_r.
  - rewrite <- (wrap_size_add_r a b). unfold wrap_size.
    replace (a + (b mod size_modulus - size_modulus))
      with (a + b mod size_modulus + (-1) * size_modulus) by lia.
    apply Z.mod_add. pose size_modulus_pos. lia.
Qed.

Lemma wrap_size_shift a b d :
  wrap_size (a + (wrap_size (b + d) - b)) = wrap_size (a + d).
Proof.
  unfold wrap_size. pose proof size_modulus_pos.
  rewrite (Z.mod_eq (b + d) size_modulus) by lia.
  replace (a + (b + d - size_modulus * ((b + d) / size_modulus) - b))
    with (a + d + (- ((b + d) / size_modulus)) * size_modulus) by lia.
  apply Z.mod_add. lia.
Qed.

Lemma to_ssize_wrap_size z :
  - (size_modulus / 2) ≤ z < size_modulus / 2 → to_ssize (wrap_size z) = z.
Proof.
  unfold to_ssize, wrap_size. cbv zeta. rewrite Z.mod_mod by done.
  change (size_modulus / 2) with 9223372036854775808.
  change size_modulus with 18446744073709551616. intros Hz.
  destruct (Z.ltb_spec (z mod 18446744073709551616) 9223372036854775808)
    as [Hlt|Hge].
  - destruct (Z_le_gt_dec 0 z); [apply Z.mod_small; lia|].
    rewrite <- (Z.mod_add z 1) in Hlt by done.
    rewrite Z.mod_small in Hlt; lia.
  - destruct (Z_le_gt_dec 0 z); [rewrite Z.mod_small in Hge; lia|].
    rewrite <- (Z.mod_add z 1) by done. rewrite Z.mod_small; lia.
Qed.

Lemma wrap_size_small z : 0 ≤ z < size_modulus → wrap_size z = z.
Proof. apply Z.mod_small. Qed.

Lemma sum_Z_app (zs1 zs2 : list Z) :
  sum_Z (zs1 ++ zs2) = sum_Z zs1 + sum_Z zs2.
Proof. unfold sum_Z. induction zs1 as [|z zs1 IH]; simpl; lia. Qed.

Lemma sum_Z_cons z (zs : list Z) : sum_Z (z :: zs) = z + sum_Z zs.
Proof. reflexivity. Qed.

Lemma fmap_agree {A B} (f f' : A → B) (xs : list A) :
  (∀ x, x ∈ xs → f' x = f x) → f' <$> xs = f <$> xs.
Proof.
  induction xs as [|x l IH]; [done|]. intros H. rewrite !fmap_cons. f_equal.
  - apply H, elem_of_cons. by left.
  - apply IH. intros y ?. apply H, elem_of_cons. by right.
Qed.

Lemma filter_all {A} (P : A → Prop) `{!∀ x, Decision (P x)} (xs : list A) :
  (∀ x, x ∈ xs → P x) → filter P xs = xs.
Proof.
  induction xs as [|x l IH]; [done|]. intros Hall.
  rewrite filter_cons_True by (apply Hall, elem_of_cons; by left).
  rewrite IH; [done|]. intros y ?. apply Hall, elem_of_cons. by right.
Qed.

Lemma elem_of_fst l hd r : (hd, r) ∈ l → hd ∈ l.*1.
Proof. intros H. apply list_elem_of_fmap. by exists (hd, r). Qed.

(** Erasing the one entry of a handle takes its term out of a sum. *)
Lemma sum_without_handle (f : handle_type * addr → Z) l hd r :
  NoDup l.*1 → (hd, r) ∈ l →
  sum_Z (f <$> filter (λ e, e.1 ≠ hd) l) = sum_Z (f <$> l) - f (hd, r).
Proof.
  induction l as [|e l IH]; [by intros _ ?%elem_of_nil|].
  rewrite fmap_cons. intros [Hfresh Hnd]%NoDup_cons [Heq|Hin]%elem_of_cons.
  - subst e. rewrite filter_cons_False by (intros Hn; by apply Hn).
    rewrite filter_all.
    + rewrite fmap_cons, sum_Z_cons. lia.
    + intros [hd' r'] Hin Heq. simpl in Heq. subst hd'.
      by apply Hfresh, elem_of_fst with r'.
  - assert (e.1 ≠ hd) as Hne.
    { intros Heq. apply Hfresh. rewrite Heq. by apply elem_of_fst with r. }
    rewrite filter_cons_True by done. rewrite !fmap_cons, !sum_Z_cons.
    rewrite IH by done. lia.
Qed.

(** Changing what one registered region occupies moves the sum by the
    difference. *)
Lemma sum_change_one (f f' : addr → Z) l hd r :
  NoDup l.*1 → (hd, r) ∈ l → (∀ hd', (hd', r) ∈ l → hd' = hd) →
  (∀ r', r' ≠ r → f' r' = f r') →
  sum_Z ((λ e, f' e.2) <$> l) = sum_Z ((λ e, f e.2) <$> l) + (f' r - f r).
Proof.
  intros Hnd Hin Hone Hother. induction l as [|e l IH];
    [by apply elem_of_nil in Hin|].
  rewrite fmap_cons in Hnd. apply NoDup_cons in Hnd as [Hfresh Hnd].
  rewrite !fmap_cons, !sum_Z_cons.
  apply elem_of_cons in Hin as [Heq|Hin].
  - subst e. rewrite (fmap_agree (λ e, f e.2) (λ e, f' e.2)); [simpl; lia|].
    intros [hd' r'] Hin'. simpl. apply Hother. intros ->.
    assert (hd' = hd) as -> by (apply Hone, elem_of_cons; by right).
    by apply Hfresh, elem_of_fst with r.
  - rewrite IH; [| done | done |].
    + rewrite (Hother e.2); [lia|]. intros Heq.
      assert (e.1 = hd) as Hhd.
      { apply Hone, elem_of_cons. left. destruct e; simpl in *; by subst. }
      apply Hfresh. rewrite Hhd. by apply elem_of_fst with r.
    + intros hd' ?. apply Hone, elem_of_cons. by right.
Qed.

Lemma region_heap_handle_insert mem r x r' :
  region_heap_handle (<[r := x]> mem) r'
  = if decide (r = r') then _heap_handle x else region_heap_handle mem r'.
Proof.
  unfold region_heap_handle. destruct (decide (r = r')) as [<-|Hne].
  - by rewrite lookup_insert_eq.
  - by rewrite lookup_insert_ne.
Qed.

Lemma update_total_memory delta g :
  _total_memory (update delta g) = wrap_size (_total_memory g + delta).
Proof. by destruct (update_spec delta g) as (_ & ? & _). Qed.

Lemma update_deltas_applied delta g :
  deltas_applied (update delta g) = deltas_applied g + delta.
Proof.
  unfold deltas_applied.
  destruct (update_spec delta g) as (_&_&_&_&_& -> &_).
  rewrite !fmap_app, !sum_Z_app. simpl.
  destruct (_ >? _), (_ || _); simpl; lia.
Qed.

(** [add] keeps store and heap in agreement and the total in step. *)
Lemma add_accounting r mem g mem' g' :
  add r (mem, g) = Some (mem', g') →
  registered_consistent mem (_regions g) →
  _total_memory g = wrap_size (registered_space mem g) →
  registered_consistent mem' (_regions g')
  ∧ _total_memory g' = wrap_size (registered_space mem' g').
Proof.
  intros (x & Hx & Hh & -> & ->)%add_spec (I1 & I2 & I3 & I4) Htotal.
  assert (region_heap_handle mem r = None) as Hnone.
  { unfold region_heap_handle. by rewrite Hx. }
  split.
  - unfold registered_consistent. rewrite update_regions.
    cbn [_regions set_regions heap_push snd entries next_handle].
    repeat split.
    + intros hd r' [Hin|Hin]%elem_of_app; rewrite region_heap_handle_insert.
      * destruct (decide (r = r')) as [<-|]; [|by apply I1].
        apply I1 in Hin. congruence.
      * apply list_elem_of_singleton in Hin as [= -> ->].
        by rewrite decide_True.
    + intros r' hd. rewrite region_heap_handle_insert, elem_of_app.
      destruct (decide (r = r')) as [<-|]; simpl.
      * intros [= <-]. right. by apply list_elem_of_singleton.
      * intros ?. left. by apply I2.
    + rewrite fmap_app. apply NoDup_app. split; [done|]. split.
      * intros hd [[hd' r'] [-> Hin]]%list_elem_of_fmap.
        intros Heq%list_elem_of_singleton. apply I4 in Hin. simpl in Heq. lia.
      * apply NoDup_singleton.
    + intros hd r' [Hin|Hin]%elem_of_app.
      * apply I4 in Hin. lia.
      * apply list_elem_of_singleton in Hin as [= -> ->]. lia.
  - rewrite update_total_memory. cbn [_total_memory set_regions].
    rewrite Htotal, wrap_size_add_l, wrap_size_to_ssize. f_equal.
    unfold registered_space. rewrite update_regions.
    cbn [_regions set_regions heap_push snd entries].
    rewrite fmap_app, sum_Z_app.
    set (mem' := <[r:=_]> mem).
    rewrite (fmap_agree (λ e, region_total_space mem e.2)
               (λ e, region_total_space mem' e.2))
      by (intros e _; by apply region_total_space_insert_handle).
    f_equal. unfold sum_Z, mem'. simpl.
    rewrite (region_total_space_insert_handle _ _ _ _ _ Hx).
    unfold region_total_space. rewrite Hx. lia.
Qed.

(** [del] likewise. *)
Lemma del_accounting r mem g mem' g' :
  del r (mem, g) = Some (mem', g') →
  registered_consistent mem (_regions g) →
  _total_memory g = wrap_size (registered_space mem g) →
  registered_consistent mem' (_regions g')
  ∧ _total_memory g' = wrap_size (registered_space mem' g').
Proof.
  intros (x & Hx & Hcase)%del_spec (I1 & I2 & I3 & I4) Htotal.
  destruct (_heap_handle x) as [hd|] eqn:Hh;
    destruct Hcase as [-> ->]; [|done].
  assert (region_heap_handle mem r = Some hd) as Hr.
  { unfold region_heap_handle. by rewrite Hx. }
  pose proof (I2 _ _ Hr) as Hin.
  split.
  - unfold registered_consistent. rewrite update_regions.
    cbn [_regions set_regions heap_erase entries next_handle].
    repeat split.
    + intros hd' r' [Hne Hin']%list_elem_of_filter. simpl in Hne.
      rewrite region_heap_handle_insert.
      destruct (decide (r = r')) as [<-|]; [|by apply I1].
      apply I1 in Hin'. congruence.
    + intros r' hd'. rewrite region_heap_handle_insert.
      destruct (decide (r = r')) as [<-|Hne]; [done|]. intros Hr'.
      apply list_elem_of_filter. split; [|by apply I2]. simpl. intros ->.
      apply I2 in Hr'. apply Hne.
      assert (∀ l : list (handle_type * addr), NoDup l.*1 → (hd, r) ∈ l →
                (hd, r') ∈ l → r = r') as Huniq.
      { clear. induction l as [|e l IH]; [by intros _ ?%elem_of_nil|].
        rewrite fmap_cons.
        intros [Hfresh Hnd]%NoDup_cons [E1|H1]%elem_of_cons
          [E2|H2]%elem_of_cons.
        - congruence.
        - subst e. exfalso. by apply Hfresh, elem_of_fst with r'.
        - subst e. exfalso. by apply Hfresh, elem_of_fst with r.
        - by apply IH. }
      by apply (Huniq _ I3).
    + clear -I3. induction (entries (_regions g)) as [|e l IH]; [done|].
      rewrite fmap_cons in I3. apply NoDup_cons in I3 as [Hfresh Hnd].
      rewrite filter_cons. destruct (decide _); [|by apply IH].
      rewrite fmap_cons. apply NoDup_cons. split; [|by apply IH].
      intros [e' [Heq [_ Hin]%list_elem_of_filter]]%list_elem_of_fmap.
      apply Hfresh. rewrite Heq. apply list_elem_of_fmap. by exists e'.
    + intros hd' r' [_ Hin']%list_elem_of_filter. by apply I4 in Hin'.
  - rewrite update_total_memory. cbn [_total_memory set_regions].
    rewrite Htotal, wrap_size_add_l, wrap_size_to_ssize, wrap_size_add_r.
    f_equal. unfold registered_space at 2. rewrite update_regions.
    cbn [_regions set_regions heap_erase entries].
    set (mem' := <[r:=_]> mem).
    rewrite (fmap_agree (λ e, region_total_space mem e.2)
               (λ e, region_total_space mem' e.2))
      by (intros e _; by apply region_total_space_insert_handle).
    rewrite (sum_without_handle _ _ hd r) by done.
    unfold registered_space. simpl. unfold region_total_space at 3.
    rewrite Hx. lia.
Qed.

Lemma region_heap_handle_resize mem r x delta r' :
  mem !! r = Some x →
  region_heap_handle (<[r := resize delta x]> mem) r'
  = region_heap_handle mem r'.
Proof.
  intros Hx. rewrite region_heap_handle_insert.
  destruct (decide (r = r')) as [<-|]; [|done].
  unfold region_heap_handle. by rewrite Hx.
Qed.

(** A reported change of occupancy likewise. *)
Lemma resize_accounting r delta mem g mem' g' :
  do_call (region_resized r delta) (mem, g) = Some (mem', g') →
  registered_consistent mem (_regions g) →
  _total_memory g = wrap_size (registered_space mem g) →
  registered_consistent mem' (_regions g')
  ∧ _total_memory g' = wrap_size (registered_space mem' g').
Proof.
  simpl. destruct (mem !! r) as [x|] eqn:Hx; simpl; [|done].
  intros Hcall (I1 & I2 & I3 & I4) Htotal.
  assert (registered_consistent (<[r:=resize delta x]> mem) (_regions g))
    as Hcons.
  { repeat split; try done.
    - intros hd r' Hin. rewrite region_heap_handle_resize by done. by apply I1.
    - intros r' hd. rewrite region_heap_handle_resize by done. by apply I2. }
  assert (∀ r', r' ≠ r →
            region_total_space (<[r:=resize delta x]> mem) r'
            = region_total_space mem r') as Hother.
  { intros r' Hne. unfold region_total_space. by rewrite lookup_insert_ne. }
  destruct (_heap_handle x) as [hd|] eqn:Hh; injection Hcall as <- <-.
  - split; [by rewrite update_regions|].
    assert (region_heap_handle mem r = Some hd) as Hr.
    { unfold region_heap_handle. by rewrite Hx. }
    rewrite update_total_memory, Htotal, wrap_size_add_l.
    unfold registered_space. rewrite update_regions.
    rewrite (sum_change_one (region_total_space mem)
               (region_total_space (<[r:=resize delta x]> mem)) _ hd r);
      [|done|by apply I2| |done].
    + assert (region_total_space (<[r:=resize delta x]> mem) r
              = wrap_size (region_total_space mem r + delta)) as ->.
      { unfold region_total_space. by rewrite lookup_insert_eq, Hx. }
      by rewrite wrap_size_shift.
    + intros hd' Hin'. apply I1 in Hin'. congruence.
  - split; [done|]. rewrite Htotal. f_equal. symmetry.
    unfold registered_space. f_equal. apply fmap_agree.
    intros [hd r'] Hin. simpl. apply Hother. intros ->.
    apply I1 in Hin. unfold region_heap_handle in Hin. rewrite Hx in Hin.
    congruence.
Qed.

Lemma do_call_deltas c mem g mem' g' :
  do_call c (mem, g) = Some (mem', g') →
  _total_memory g = wrap_size (deltas_applied g) →
  _total_memory g' = wrap_size (deltas_applied g').
Proof.
  intros Hcall Htotal.
  assert (∀ d, _total_memory (update d g) = wrap_size (deltas_applied (update d g)))
    as Hupd.
  { intros d.
    by rewrite update_total_memory, update_deltas_applied, Htotal,
      wrap_size_add_l. }
  destruct c as [r|r|d|r d]; simpl in Hcall.
  - apply add_spec in Hcall as (x & _ & _ & _ & ->).
    rewrite update_total_memory, update_deltas_applied. cbn [_total_memory set_regions].
    unfold deltas_applied in *. cbn [observed set_regions].
    by rewrite Htotal, wrap_size_add_l.
  - apply del_spec in Hcall as (x & _ & Hcase).
    destruct (_heap_handle x); destruct Hcase as [_ ->]; [|done].
    rewrite update_total_memory, update_deltas_applied. cbn [_total_memory set_regions].
    unfold deltas_applied in *. cbn [observed set_regions].
    by rewrite Htotal, wrap_size_add_l.
  - injection Hcall as _ <-. apply Hupd.
  - destruct (mem !! r) as [x|]; simpl in Hcall; [|done].
    destruct (_heap_handle x); injection Hcall as _ <-; [apply Hupd|done].
Qed.

Lemma do_calls_deltas cs mem g mem' g' :
  do_calls cs (mem, g) = Some (mem', g') →
  _total_memory g = wrap_size (deltas_applied g) →
  _total_memory g' = wrap_size (deltas_applied g').
Proof.
  revert mem g. induction cs as [|c cs IH]; intros mem g; simpl.
  - by intros [= -> ->].
  - destruct (do_call c (mem, g)) as [[mem1 g1]|] eqn:Hc; simpl; [|done].
    intros Hrest Htotal. eapply IH; [exact Hrest|].
    by eapply do_call_deltas.
Qed.

Lemma do_calls_registered cs mem g mem' g' :
  do_calls cs (mem, g) = Some (mem', g') →
  forallb (λ c, negb (is_bare_update c)) cs = true →
  registered_consistent mem (_regions g) →
  _total_memory g = wrap_size (registered_space mem g) →
  registered_consistent mem' (_regions g')
  ∧ _total_memory g' = wrap_size (registered_space mem' g').
Proof.
  revert mem g. induction cs as [|c cs IH]; intros mem g; simpl.
  - by intros [= -> ->].
  - destruct (do_call c (mem, g)) as [[mem1 g1]|] eqn:Hc; simpl; [|done].
    intros Hrest [Hpaired Hall]%andb_true_iff Hcons Htotal.
    assert (registered_consistent mem1 (_regions g1)
            ∧ _total_memory g1 = wrap_size (registered_space mem1 g1))
      as [Hcons1 Htotal1].
    { destruct c as [r|r|d|r d]; [| |done|].
      - by eapply add_accounting.
      - by eapply del_accounting.
      - by eapply resize_accounting. }
    by eapply IH.
Qed.

Lemma add_applies_occupancy r mem g mem' g' :
  add r (mem, g) = Some (mem', g') →
  deltas_applied g' = deltas_applied g + to_ssize (region_total_space mem r).
Proof.
  intros (x & Hx & _ & _ & ->)%add_spec. rewrite update_deltas_applied.
  unfold region_total_space. by rewrite Hx.
Qed.

Lemma del_applies_occupancy r mem g mem' g' :
  del r (mem, g) = Some (mem', g') →
  is_Some (region_heap_handle mem r) →
  deltas_applied g' =
    deltas_applied g + to_ssize (wrap_size (- region_total_space mem r)).
Proof.
  intros (x & Hx & Hcase)%del_spec. unfold region_heap_handle, region_total_space.
  rewrite Hx. intros [hd Hh]. rewrite Hh in Hcase. destruct Hcase as [_ ->].
  by rewrite update_deltas_applied.
Qed.

(** C5 (as the code has it): after any sequence of calls on a group that
    started empty, [_total_memory] is the sum of the deltas handed to
    [update] in the counter's 64-bit arithmetic, so the sum itself while
    that fits (read as [size_t] or as [ssize_t]); when every [update(delta)]
    of the sequence is the report of a change by [delta] of a registered
    region's total space (no other [update] call), it is also the sum of
    [occupancy().total_space()] over the registered regions. *)
Theorem total_memory_accounting name cfg mem cs mem' g' :
  map_Forall (λ _ x, _heap_handle x = None) mem →
  do_calls cs (mem, (make_region_group name cfg).2) = Some (mem', g') →
  (_total_memory g' = wrap_size (deltas_applied g')
   ∧ (0 ≤ deltas_applied g' < size_modulus
      → _total_memory g' = deltas_applied g')
   ∧ (- (size_modulus / 2) ≤ deltas_applied g' < size_modulus / 2
      → to_ssize (_total_memory g') = deltas_applied g'))
  ∧ (forallb (λ c, negb (is_bare_update c)) cs = true →
     _total_memory g' = wrap_size (registered_space mem' g')
     ∧ (0 ≤ registered_space mem' g' < size_modulus
        → _total_memory g' = registered_space mem' g')).
Proof.
  intros Hfree Hcalls.
  assert (_total_memory g' = wrap_size (deltas_applied g')) as Hdeltas.
  { by eapply do_calls_deltas. }
  split.
  - split; [done|]. split; intros Hfit.
    + by rewrite Hdeltas, wrap_size_small.
    + by rewrite Hdeltas, to_ssize_wrap_size.
  - intros Hpaired.
    destruct (do_calls_registered _ _ _ _ _ Hcalls Hpaired) as [_ Hreg].
    + repeat split; simpl.
      * by intros hd r ?%elem_of_nil.
      * intros r hd. unfold region_heap_handle.
        destruct (mem !! r) as [x|] eqn:Hx; [|done].
        by rewrite (map_Forall_lookup_1 _ _ _ _ Hfree Hx).
      * apply NoDup_nil_2.
      * by intros hd r ?%elem_of_nil.
    + done.
    + split; [done|]. intros Hfit. by rewrite Hreg, wrap_size_small.
Qed.

End accounting.

(** ** Consistency of store and priority structure *)

Section consistency.
Implicit Types (mem : store) (g : region_group) (r : addr).

Lemma add_consistent r mem g mem' g' :
  add r (mem, g) = Some (mem', g') →
  registered_consistent mem (_regions g) →
  registered_consistent mem' (_regions g').
Proof.
  intros (x & Hx & Hh & -> & ->)%add_spec (I1 & I2 & I3 & I4).
  assert (region_heap_handle mem r = None) as Hnone.
  { unfold region_heap_handle. by rewrite Hx. }
  unfold registered_consistent. rewrite update_regions.
  cbn [_regions set_regions heap_push snd entries next_handle].
  split; [|split; [|split]].
  - intros hd r' [Hin|Hin]%elem_of_app; rewrite region_heap_handle_insert.
    + destruct (decide (r = r')) as [<-|]; [|by apply I1].
      apply I1 in Hin. congruence.
    + apply list_elem_of_singleton in Hin as [= -> ->]. by rewrite decide_True.
  - intros r' hd. rewrite region_heap_handle_insert, elem_of_app.
    destruct (decide (r = r')) as [<-|]; simpl.
    + intros [= <-]. right. by apply list_elem_of_singleton.
    + intros ?. left. by apply I2.
  - rewrite fmap_app. apply NoDup_app. split; [done|]. split.
    + intros hd [[hd' r'] [-> Hin]]%list_elem_of_fmap.
      intros Heq%list_elem_of_singleton. apply I4 in Hin. simpl in Heq. lia.
    + apply NoDup_singleton.
  - intros hd r' [Hin|Hin]%elem_of_app.
    + apply I4 in Hin. lia.
    + apply list_elem_of_singleton in Hin as [= -> ->]. lia.
Qed.

Lemma filter_fst_NoDup {A B} (P : A * B → Prop) `{!∀ e, Decision (P e)}
    (xs : list (A * B)) :
  NoDup xs.*1 → NoDup (filter P xs).*1.
Proof.
  induction xs as [|e xs IH]; [done|]. rewrite fmap_cons.
  intros [Hfresh Hnd]%NoDup_cons. rewrite filter_cons.
  destruct (decide (P e)); [|by apply IH].
  rewrite fmap_cons. apply NoDup_cons. split; [|by apply IH].
  intros [e' [Heq [_ Hin]%list_elem_of_filter]]%list_elem_of_fmap.
  apply Hfresh. rewrite Heq. apply list_elem_of_fmap. by exists e'.
Qed.

Lemma del_consistent r mem g mem' g' :
  del r (mem, g) = Some (mem', g') →
  registered_consistent mem (_regions g) →
  registered_consistent mem' (_regions g').
Proof.
  intros (x & Hx & Hcase)%del_spec (I1 & I2 & I3 & I4).
  destruct (_heap_handle x) as [hd|] eqn:Hh;
    destruct Hcase as [-> ->]; [|done].
  assert (region_heap_handle mem r = Some hd) as Hr.
  { unfold region_heap_handle. by rewrite Hx. }
  pose proof (I2 _ _ Hr) as Hin.
  unfold registered_consistent. rewrite update_regions.
  cbn [_regions set_regions heap_erase entries next_handle].
  split; [|split; [|split]].
  - intros hd' r' [Hne Hin']%list_elem_of_filter. simpl in Hne.
    rewrite region_heap_handle_insert.
    destruct (decide (r = r')) as [<-|]; [|by apply I1].
    apply I1 in Hin'. congruence.
  - intros r' hd'. rewrite region_heap_handle_insert.
    destruct (decide (r = r')) as [<-|Hne]; [done|]. intros Hr'.
    apply list_elem_of_filter. split; [|by apply I2]. simpl. intros ->.
    apply I2 in Hr'. apply Hne.
    by apply (NoDup_fst_functional _ _ _ _ I3 Hin Hr').
  - by apply filter_fst_NoDup.
  - intros hd' r' [_ Hin']%list_elem_of_filter. by apply I4 in Hin'.
Qed.

Lemma do_call_consistent c mem g mem' g' :
  do_call c (mem, g) = Some (mem', g') →
  registered_consistent mem (_regions g) →
  registered_consistent mem' (_regions g').
Proof.
  destruct c as [r|r|d|r d]; simpl.
  - apply add_consistent.
  - apply del_consistent.
  - intros [= <- <-]. by rewrite update_regions.
  - destruct (mem !! r) as [x|] eqn:Hx; simpl; [|done].
    intros Hcall (I1 & I2 & I3 & I4).
    assert (_regions g' = _regions g ∧ mem' = <[r:=resize d x]> mem)
      as [-> ->].
    { destruct (_heap_handle x); injection Hcall as <- <-;
        by rewrite ?update_regions. }
    repeat split; try done.
    + intros hd r' Hin. rewrite region_heap_handle_resize by done. by apply I1.
    + intros r' hd. rewrite region_heap_handle_resize by done. by apply I2.
Qed.

Lemma registered_consistent_NoDup_regions mem (h : region_heap) :
  registered_consistent mem h → NoDup (entries h).*2.
Proof.
  intros (I1 & _ & I3 & _). revert I1 I3.
  generalize (entries h). intros l.
  induction l as [|[hd r] l IH]; intros I1 I3; [apply NoDup_nil_2|].
  rewrite fmap_cons in *. apply NoDup_cons in I3 as [Hfresh Hnd].
  apply NoDup_cons. split.
  - simpl. intros [[hd' r'] [Heq Hin]]%list_elem_of_fmap. simpl in Heq.
    subst r'. apply Hfresh. simpl.
    assert (hd' = hd) as ->.
    { assert (region_heap_handle mem r = Some hd') as H1
        by (apply I1, elem_of_cons; by right).
      assert (region_heap_handle mem r = Some hd) as H2
        by (apply I1, elem_of_cons; by left).
      congruence. }
    apply list_elem_of_fmap. by exists (hd, r).
  - apply IH; [|done]. intros hd' r' Hin. apply I1, elem_of_cons. by right.
Qed.

Lemma do_calls_consistent cs mem g mem' g' :
  do_calls cs (mem, g) = Some (mem', g') →
  registered_consistent mem (_regions g) →
  registered_consistent mem' (_regions g').
Proof.
  revert mem g. induction cs as [|c cs IH]; intros mem g; simpl.
  - by intros [= -> ->].
  - destruct (do_call c (mem, g)) as [[mem1 g1]|] eqn:Hc; simpl; [|done].
    intros Hrest Hcons. eapply IH; [exact Hrest|].
    by eapply do_call_consistent.
Qed.

Lemma make_region_group_consistent name cfg mem :
  map_Forall (λ _ x, _heap_handle x = None) mem →
  registered_consistent mem (_regions (make_region_group name cfg).2).
Proof.
  intros Hfree. repeat split; simpl.
  - by intros hd r ?%elem_of_nil.
  - intros r hd. unfold region_heap_handle.
    destruct (mem !! r) as [x|] eqn:Hx; [|done].
    by rewrite (map_Forall_lookup_1 _ _ _ _ Hfree Hx).
  - apply NoDup_nil_2.
  - by intros hd r ?%elem_of_nil.
Qed.

End consistency.

(** ** The releaser and the queue *)

Section releaser.
Implicit Types (g : region_group) (t : releaser_state) (a : action)
  (acts : list action) (req : request).

Lemma do_action_step a s s' : do_action a s = Some s' → step s a s'.
Proof.
  destruct s as [t g]. destruct a; simpl.
  - destruct t; try done.
    destruct (releaser_iteration g) as [[i g']|] eqn:Hi; [|done].
    intros [= <-]. by constructor.
  - destruct t; try done.
    destruct (has_waiter (_relief g)) eqn:Hw; [done|].
    intros [= <-]. by constructor.
  - intros [= <-]. constructor.
  - intros [= <-]. constructor.
  - destruct (decide _); [done|]. intros [= <-]. by constructor.
  - intros [= <-]. constructor.
  - intros [= <-]. constructor.
Qed.

Lemma do_actions_run acts s s' : do_actions acts s = Some s' → run s acts s'.
Proof.
  revert s'. induction acts as [|a acts IH] using rev_ind; intros s'.
  - intros [= <-]. constructor.
  - unfold do_actions in *. rewrite foldl_app. simpl.
    destruct (foldl _ (Some s) acts) as [s1|]; simpl; [|done].
    intros Ha%do_action_step. econstructor; [by apply IH|done].
Qed.

(** The loop body, case by case; it always returns. *)
Lemma releaser_iteration_cases g :
  (_shutdown_requested g = true
   ∧ releaser_iteration g = Some (ready stop_yes, g))
  ∨ (_shutdown_requested g = false
     ∧ execution_permitted g = true
     ∧ ∃ req expiry rest,
         fifo (_blocked_requests g) = (req, expiry) :: rest
         ∧ releaser_iteration g =
             Some (ready stop_no,
                   emit (allocated req)
                     (set_blocked_requests
                        (mk_queue (on_expiry_name (_blocked_requests g)) rest)
                        g)))
  ∨ (_shutdown_requested g = false
     ∧ (fifo (_blocked_requests g) = [] ∨ execution_permitted g = false)
     ∧ releaser_iteration g =
         Some (if signalled (_relief g) then ready stop_no else waits,
               set_relief (wait (_relief g)).2 g)).
Proof.
  unfold releaser_iteration, queue_empty, execute_one, wait.
  destruct (_shutdown_requested g); [by left|]. right.
  destruct (fifo (_blocked_requests g)) as [|[req expiry] rest] eqn:Hq; simpl.
  - right. destruct (signalled (_relief g)); auto.
  - destruct (execution_permitted g); simpl.
    + left. repeat split. by exists req, expiry, rest.
    + right. destruct (signalled (_relief g)); auto.
Qed.

Lemma foldl_emit_spec {A} (f : A → event) (xs : list A) g :
  let g' := foldl (λ g x, emit (f x) g) g xs in
  observed g' = observed g ++ (f <$> xs)
  ∧ _blocked_requests g' = _blocked_requests g
  ∧ _shutdown_requested g' = _shutdown_requested g
  ∧ _relief g' = _relief g.
Proof.
  revert g. induction xs as [|x xs IH]; intros g; simpl.
  - by rewrite app_nil_r.
  - destruct (IH (emit (f x) g)) as (-> & -> & -> & ->). simpl.
    by rewrite <- app_assoc.
Qed.

Lemma expire_spec now g :
  let q := _blocked_requests g in
  _blocked_requests (expire now g)
  = mk_queue (on_expiry_name q) (filter (λ e, ¬ deadline_elapsed now e) (fifo q))
  ∧ observed (expire now g)
    = observed g
      ++ ((λ e, on_request_expiry (on_expiry_name q) e.1)
          <$> filter (λ e, deadline_elapsed now e) (fifo q))
  ∧ _shutdown_requested (expire now g) = _shutdown_requested g.
Proof.
  unfold expire. cbv zeta.
  destruct (foldl_emit_spec
              (λ e, on_request_expiry (on_expiry_name (_blocked_requests g)) e.1)
              (filter (λ e, deadline_elapsed now e) (fifo (_blocked_requests g)))
              (set_blocked_requests
                 (mk_queue (on_expiry_name (_blocked_requests g))
                    (filter (λ e, ¬ deadline_elapsed now e)
                       (fifo (_blocked_requests g)))) g))
    as (-> & -> & -> & _).
  done.
Qed.

Lemma step_queue_effect t g a t' g' :
  step (t, g) a (t', g') →
  on_expiry_name (_blocked_requests g') = on_expiry_name (_blocked_requests g)
  ∧ queue_effect g g'.
Proof.
  inversion 1; subst.
  - destruct (releaser_iteration_cases g)
      as [[_ Hi]|[(_ & _ & req & expiry & rest & Hq & Hi)|(_ & _ & Hi)]];
      rewrite Hi in *; simplify_eq; simpl.
    + split; [done|]. apply effect_quiet with []; by rewrite ?app_nil_r.
    + split; [done|]. by apply effect_execute with req expiry.
    + split; [done|]. apply effect_quiet with []; by rewrite ?app_nil_r.
  - split; [done|]. apply effect_quiet with []; by rewrite ?app_nil_r.
  - destruct (update_spec delta g) as (_&_&_&_&_& Hobs &_&_& Hq &_).
    split; [by rewrite Hq|]. eapply effect_quiet; [by rewrite Hq|exact Hobs|].
    by destruct (_ >? _), (_ || _).
  - destruct (update_hard_spec delta g) as (_&_&_&_&_& Hobs &_&_& Hq &_).
    split; [by rewrite Hq|]. eapply effect_quiet; [by rewrite Hq|exact Hobs|].
    by destruct (_ && _).
  - split; [done|]. by apply effect_enqueue with req expiry.
  - destruct (expire_spec now g) as (Hq & Hobs & _). rewrite Hq.
    split; [done|]. apply effect_expire with now; [by rewrite Hq|done].
  - split; [done|]. by apply effect_quiet with [relief_signalled].
Qed.

Lemma step_shutdown_requested t g a t' g' :
  step (t, g) a (t', g') →
  _shutdown_requested g' = true
  ↔ _shutdown_requested g = true ∨ a = act_shutdown.
Proof.
  inversion 1; subst.
  - destruct (releaser_iteration_cases g)
      as [[_ Hi]|[(_ & _ & req & expiry & rest & Hq & Hi)|(_ & _ & Hi)]];
      rewrite Hi in *; simplify_eq; simpl; intuition congruence.
  - intuition congruence.
  - destruct (update_spec delta g) as (_&_&_&_&_&_&_&_&_& ->).
    intuition congruence.
  - destruct (update_hard_spec delta g) as (_&_&_&_&_&_&_&_&_& ->).
    intuition congruence.
  - simpl. intuition congruence.
  - destruct (expire_spec now g) as (_ & _ & ->). intuition congruence.
  - simpl. intuition.
Qed.

(** A run keeps what every step keeps. *)
Lemma run_preserves (P : releaser_state * region_group → Prop) s acts s' :
  (∀ s1 a s2, step s1 a s2 → P s1 → P s2) →
  run s acts s' → P s → P s'.
Proof. intros Hstep. induction 1; eauto. Qed.

Lemma omap_request_of_expiry name (xs : list (request * option time_point)) :
  omap request_of_event ((λ e, on_request_expiry name e.1) <$> xs) = xs.*1.
Proof. induction xs as [|x xs IH]; csimpl; [done|]. by rewrite IH. Qed.

Lemma queue_effect_known g g' :
  queue_effect g g' →
  (∃ req, (req ∉ known_requests g)
          ∧ (known_requests g' ≡ₚ req :: known_requests g))
  ∨ (known_requests g' ≡ₚ known_requests g).
Proof.
  unfold known_requests.
  intros [evs Hq Hobs Hevs|req expiry Hq Hobs|req expiry Hnew Hq Hobs|now Hq Hobs];
    rewrite ?Hq, ?Hobs.
  - right. by rewrite omap_app, Hevs, app_nil_r.
  - right. rewrite omap_app. csimpl.
    by rewrite app_assoc, Permutation_app_comm.
  - left. exists req. split; [done|]. rewrite fmap_app. csimpl.
    rewrite <- app_assoc. csimpl. symmetry. apply Permutation_middle.
  - right. rewrite omap_app, omap_request_of_expiry.
    rewrite (Permutation_app_comm (omap _ _)), app_assoc.
    apply Permutation_app; [|done]. rewrite <- fmap_app.
    apply fmap_Permutation. rewrite Permutation_app_comm.
    apply filter_app_complement.
Qed.

Lemma run_expiry_name s acts s' :
  run s acts s' →
  on_expiry_name (_blocked_requests s'.2) = on_expiry_name (_blocked_requests s.2).
Proof.
  induction 1 as [|s acts [t1 g1] a [t2 g2] _ IH Hstep]; [done|].
  apply step_queue_effect in Hstep as [Hname _]. simpl in *. congruence.
Qed.

Lemma run_known_NoDup s acts s' :
  run s acts s' → NoDup (known_requests s.2) → NoDup (known_requests s'.2).
Proof.
  intros Hrun.
  apply (run_preserves (λ s, NoDup (known_requests s.2)) s acts s'); [|done].
  intros [t1 g1] a [t2 g2] [_ Heff]%step_queue_effect Hnd. simpl in *.
  apply queue_effect_known in Heff as [(req & Hnew & ->)| ->]; [|done].
  by apply NoDup_cons.
Qed.

Lemma run_shutdown_requested s acts s' :
  run s acts s' →
  _shutdown_requested s'.2 = true →
  _shutdown_requested s.2 = true ∨ act_shutdown ∈ acts.
Proof.
  induction 1 as [|s acts [t1 g1] a [t2 g2] _ IH Hstep]; [by left|].
  intros Hflag. apply (step_shutdown_requested _ _ _ _ _ Hstep) in Hflag.
  rewrite elem_of_app, list_elem_of_singleton.
  destruct Hflag as [Hflag| ->]; [|by auto]. destruct (IH Hflag); auto.
Qed.

Lemma run_terminated t0 g0 acts t g :
  run (t0, g0) acts (t, g) →
  t = Terminated →
  t0 = Terminated
  ∨ (_shutdown_requested g = true
     ∧ ∃ acts1 acts2,
         acts = acts1 ++ act_iterate :: acts2
         ∧ (_shutdown_requested g0 = true ∨ act_shutdown ∈ acts1)).
Proof.
  intros Hrun. remember (t0, g0) as s0 eqn:Hs0. remember (t, g) as s eqn:Hs.
  revert t g Hs.
  induction Hrun as [|s0 acts [t1 g1] a s2 Hrun IH Hstep]; intros t g -> ->.
  { left. congruence. }
  subst s0. specialize (IH eq_refl t1 g1 eq_refl).
  assert (t1 = Terminated → t0 = Terminated
          ∨ (_shutdown_requested g = true
             ∧ ∃ acts1 acts2,
                 acts ++ [a] = acts1 ++ act_iterate :: acts2
                 ∧ (_shutdown_requested g0 = true ∨ act_shutdown ∈ acts1)))
    as Hkeep.
  { intros Ht1. destruct (IH Ht1) as [?|(Hflag & acts1 & acts2 & -> & Hsd)];
      [by left|]. right. split.
    - apply (step_shutdown_requested _ _ _ _ _ Hstep). by left.
    - exists acts1, (acts2 ++ [a]). by rewrite <- app_assoc. }
  inversion Hstep; subst; try by apply Hkeep.
  destruct (releaser_iteration_cases g1)
    as [[Hflag Hi]|[(_ & _ & req & expiry & rest & Hq & Hi)|(_ & _ & Hi)]];
    rewrite Hi in *; simplify_eq.
  - right. split; [done|]. exists acts, []. split; [done|].
    by apply (run_shutdown_requested _ _ _ Hrun).
  - match goal with H : after_iteration _ = _ |- _ =>
      by destruct (signalled (_relief g1)) end.
Qed.

(** After [shutdown()] the task ends within two of its own steps. *)
Lemma shutdown_terminates t g :
  t ≠ Terminated →
  ∃ acts g', (acts = [act_iterate] ∨ acts = [act_wake; act_iterate])
    ∧ run (t, shutdown g) acts (Terminated, g').
Proof.
  intros Ht. destruct t; [| |done].
  - exists [act_iterate], (shutdown g). split; [by left|].
    apply do_actions_run. reflexivity.
  - exists [act_wake; act_iterate], (shutdown g). split; [by right|].
    apply do_actions_run. unfold do_actions, shutdown, signal_relief, signal.
    simpl. by destruct (has_waiter (_relief g)).
Qed.

(** C6: one run of the loop body always returns; it executes the front
    request, and only that one, when shutdown is not requested, the queue is
    not empty and [execution_permitted()] holds, and executes nothing
    otherwise.  A started task is terminated only after [shutdown()] was
    called and a later run of the body saw [_shutdown_requested]; the future
    [shutdown()] returns is resolved exactly in that state. *)
Theorem releaser_protocol name cfg t0 g0 acts t g :
  make_region_group name cfg = (Some t0, g0) →
  run (t0, g0) acts (t, g) →
  (∃ i g', releaser_iteration g = Some (i, g')
     ∧ ((_shutdown_requested g = false
         ∧ fifo (_blocked_requests g) ≠ []
         ∧ execution_permitted g = true
         ∧ i = ready stop_no
         ∧ ∃ req expiry,
             fifo (_blocked_requests g)
             = (req, expiry) :: fifo (_blocked_requests g')
             ∧ observed g' = observed g ++ [allocated req])
        ∨ ((_shutdown_requested g = true
            ∨ fifo (_blocked_requests g) = []
            ∨ execution_permitted g = false)
           ∧ fifo (_blocked_requests g') = fifo (_blocked_requests g)
           ∧ observed g' = observed g
           ∧ (i = ready stop_yes ↔ _shutdown_requested g = true))))
  ∧ (t = Terminated →
     _shutdown_requested g = true
     ∧ ∃ acts1 acts2,
         acts = acts1 ++ act_iterate :: acts2 ∧ act_shutdown ∈ acts1)
  ∧ (releaser_resolved (Some t) = true ↔ t = Terminated).
Proof.
  intros Hmake Hrun. split; [|split].
  - destruct (releaser_iteration_cases g)
      as [[Hflag Hi]|[(Hflag & Hperm & req & expiry & rest & Hq & Hi)
                     |(Hflag & Hidle & Hi)]]; rewrite Hi.
    + eexists _, _. split; [done|]. right. rewrite Hflag. tauto.
    + eexists _, _. split; [done|]. left. rewrite Hq. simpl.
      repeat split; try done. by exists req, expiry.
    + eexists _, _. split; [done|]. right. rewrite Hflag. simpl.
      repeat split; try tauto; try done.
      by destruct (signalled (_relief g)).
  - intros Ht.
    destruct (run_terminated _ _ _ _ _ Hrun Ht)
      as [->|(Hflag & acts1 & acts2 & -> & [Hflag0|Hsd])].
    + unfold make_region_group in Hmake. by destruct (reclaimer_can_block _).
    + unfold make_region_group in Hmake. by simplify_eq.
    + split; [done|]. by exists acts1, acts2.
  - by destruct t.
Qed.

Lemma allocated_in_requests req (evs : list event) :
  allocated req ∈ evs → req ∈ omap request_of_event evs.
Proof. intros Hin. apply list_elem_of_omap. by exists (allocated req). Qed.

Lemma failed_in_requests req ex (evs : list event) :
  failed req ex ∈ evs → req ∈ omap request_of_event evs.
Proof. intros Hin. apply list_elem_of_omap. by exists (failed req ex). Qed.

(** Once failed and out of the queue, a request stays so and is not
    executed. *)
Lemma failed_request_stays_out req ex s acts s' :
  run s acts s' →
  (req ∉ (fifo (_blocked_requests s.2)).*1) ∧ (allocated req ∉ observed s.2)
  ∧ failed req ex ∈ observed s.2 →
  (req ∉ (fifo (_blocked_requests s'.2)).*1) ∧ (allocated req ∉ observed s'.2)
  ∧ failed req ex ∈ observed s'.2.
Proof.
  intros Hrun.
  apply (run_preserves
           (λ s, (req ∉ (fifo (_blocked_requests s.2)).*1)
                 ∧ (allocated req ∉ observed s.2)
                 ∧ failed req ex ∈ observed s.2) s acts s'); [|done].
  clear. intros [t1 g1] a [t2 g2] [_ Heff]%step_queue_effect. simpl.
  intros (Hout & Hnot & Hfailed).
  destruct Heff as [evs Hq Hobs Hevs|req' expiry Hq Hobs
                   |req' expiry Hnew Hq Hobs|now Hq Hobs];
    (split; [|split]).
  - by rewrite Hq.
  - rewrite Hobs, elem_of_app. intros [?|Hin%allocated_in_requests]; [done|].
    rewrite Hevs in Hin. by apply elem_of_nil in Hin.
  - rewrite Hobs, elem_of_app. by left.
  - intros Hin. apply Hout. rewrite Hq, fmap_cons, elem_of_cons. by right.
  - rewrite Hobs, elem_of_app.
    intros [?|Heq%list_elem_of_singleton]; [done|]. injection Heq as ->.
    apply Hout. rewrite Hq, fmap_cons, elem_of_cons. by left.
  - rewrite Hobs, elem_of_app. by left.
  - rewrite Hq, fmap_app, elem_of_app. intros [?|Hin]; [done|].
    apply list_elem_of_singleton in Hin. simpl in Hin. subst req'.
    apply Hnew. unfold known_requests. rewrite elem_of_app. right.
    by apply failed_in_requests with ex.
  - by rewrite Hobs.
  - by rewrite Hobs.
  - rewrite Hq. intros [e' [-> Hin]]%list_elem_of_fmap. apply Hout.
    apply list_elem_of_fmap. exists e'. split; [done|].
    by apply list_elem_of_filter in Hin as [_ ?].
  - rewrite Hobs, elem_of_app.
    intros [?|[e' [Heq _]]%list_elem_of_fmap]; done.
  - rewrite Hobs, elem_of_app. by left.
Qed.

(** C9: in a group constructed with [name], a request that is queued with
    a deadline that has elapsed when expiry runs leaves the queue and is
    failed with [blocked_requests_timed_out_error{name}]; it was not
    executed before and is not executed or queued again afterwards. *)
Theorem expired_request_times_out name cfg t0 acts t g req deadline now
    acts' t' g' :
  run (t0, (make_region_group name cfg).2) acts (t, g) →
  (req, Some deadline) ∈ fifo (_blocked_requests g) →
  deadline ≤ now →
  run (t, expire now g) acts' (t', g') →
  (req ∉ (fifo (_blocked_requests (expire now g))).*1)
  ∧ failed req (blocked_requests_timed_out_error name) ∈ observed (expire now g)
  ∧ (allocated req ∉ observed (expire now g))
  ∧ (req ∉ (fifo (_blocked_requests g')).*1)
  ∧ (allocated req ∉ observed g')
  ∧ failed req (blocked_requests_timed_out_error name) ∈ observed g'.
Proof.
  intros Hrun Hin Hdue Hrun'.
  pose proof (run_expiry_name _ _ _ Hrun) as Hname. simpl in Hname.
  pose proof (run_known_NoDup _ _ _ Hrun) as Hnd. simpl in Hnd.
  specialize (Hnd (NoDup_nil_2)). unfold known_requests in Hnd.
  apply NoDup_app in Hnd as (Hndq & Hdisj & _).
  destruct (expire_spec now g) as (Hq & Hobs & _).
  assert (deadline_elapsed now (req, Some deadline)) as Helapsed.
  { unfold deadline_elapsed. simpl. by apply Is_true_true, Z.leb_le. }
  assert (req ∉ (fifo (_blocked_requests (expire now g))).*1) as Hout.
  { rewrite Hq. simpl.
    intros [[req' d'] [Heq [Hkept Hin']%list_elem_of_filter]]%list_elem_of_fmap.
    simpl in Heq. subst req'.
    by rewrite (NoDup_fst_functional _ _ _ _ Hndq Hin' Hin) in Hkept. }
  assert (failed req (blocked_requests_timed_out_error name)
          ∈ observed (expire now g)) as Hfailed.
  { rewrite Hobs, Hname, elem_of_app. right.
    apply list_elem_of_fmap. exists (req, Some deadline). split; [done|].
    by apply list_elem_of_filter. }
  assert (allocated req ∉ observed (expire now g)) as Hnot.
  { rewrite Hobs, elem_of_app.
    intros [Hex%allocated_in_requests|[e' [Heq _]]%list_elem_of_fmap];
      [|done].
    apply (Hdisj req); [|done]. apply list_elem_of_fmap.
    by exists (req, Some deadline). }
  split; [done|]. split; [done|]. split; [done|].
  by apply (failed_request_stays_out _ _ _ _ _ Hrun').
Qed.

End releaser.

(** * The properties on the sample configurations *)

(** The throttle scenario: 600, then 1100 (blocked), then 900 (relieved,
    one signal). *)
Example scenario_throttle :
  execution_permitted (update 600 sample_group) = true
  ∧ execution_permitted pressured_group = false
  ∧ _total_memory (update (-200) pressured_group) = 900
  ∧ execution_permitted (update (-200) pressured_group) = true
  ∧ relief_signals (new_events pressured_group (update (-200) pressured_group))
    = 1%nat.
Proof. by vm_compute. Qed.

(** The relief of [pressured_group] by [update(-200)] is signalled once,
    and since no task waits on [_relief] the signal is kept. *)
Lemma update_signals_relief_once_witness :
  (under_pressure pressured_group = true
   ∧ under_pressure (update (-200) pressured_group) = false)
  ∧ relief_signals (new_events pressured_group (update (-200) pressured_group))
    = 1%nat
  ∧ _relief (update (-200) pressured_group) = signal (_relief pressured_group)
  ∧ signalled (_relief pressured_group) = false
  ∧ signalled (_relief (update (-200) pressured_group)) = true.
Proof.
  assert (under_pressure pressured_group = true
          ∧ under_pressure (update (-200) pressured_group) = false) as H.
  { split; reflexivity. }
  split; [exact H|].
  destruct (update_signals_relief_once (-200) pressured_group)
    as (_ & Hiff & _ & Hsignal & _).
  split; [apply Hiff; left; exact H|].
  destruct (Hsignal (or_introl H)) as (Hrelief & _ & Hkept).
  split; [exact Hrelief|].
  split; [reflexivity|].
  apply Hkept. reflexivity.
Defined.

(** With hard pressure clear on entry the helper returns false. *)
Lemma hard_pressure_latch_witness :
  _under_hard_pressure sample_group = false
  ∧ (do_update_hard_and_check_relief 5 sample_group).1 = false.
Proof.
  split; [reflexivity|].
  destruct (hard_pressure_latch 5 sample_group) as ((_ & _ & _ & Hclear) & _).
  apply Hclear. reflexivity.
Defined.

(** [update(1000)] on [level_group] lands on all three thresholds. *)
Lemma thresholds_are_strict_witness :
  (_total_memory (update 1000 level_group) = 1000
   ∧ _hard_total_memory (update 1000 level_group) = 1000)
  ∧ soft_relief_notified ∈ new_events level_group (update 1000 level_group)
  ∧ execution_permitted (update 1000 level_group) = true.
Proof.
  split; [split; reflexivity|].
  destruct (thresholds_are_strict 1000 level_group)
    as (Hsoft & _ & _ & Hperm & _).
  split.
  - apply Hsoft. reflexivity.
  - apply Hperm; reflexivity.
Defined.

(** C10, against the claim: with thresholds 500, 1000 and 1000,
    [update(1000)] on the new group leaves [_total_memory] equal to
    [throttle_threshold] and [_hard_total_memory] equal to
    [hard_throttle_threshold], and [execution_permitted()] true; the soft
    notification issued is the pressure one, not the relief one. *)
Lemma soft_pressure_at_throttle_threshold :
  _total_memory (update 1000 tiered_group)
  = throttle_threshold (_cfg tiered_group)
  ∧ _hard_total_memory (update 1000 tiered_group)
    = hard_throttle_threshold (_cfg tiered_group)
  ∧ execution_permitted (update 1000 tiered_group) = true
  ∧ new_events tiered_group (update 1000 tiered_group)
    = [delta_applied 1000; soft_pressure_notified]
  ∧ ¬ (_total_memory (update 1000 tiered_group)
       = throttle_threshold (_cfg tiered_group)
       → _hard_total_memory (update 1000 tiered_group)
         = hard_throttle_threshold (_cfg tiered_group)
       → execution_permitted (update 1000 tiered_group) = true
         ∧ soft_relief_notified
           ∈ new_events tiered_group (update 1000 tiered_group)
         ∧ soft_pressure_notified
           ∉ new_events tiered_group (update 1000 tiered_group)).
Proof.
  assert (new_events tiered_group (update 1000 tiered_group)
          = [delta_applied 1000; soft_pressure_notified]) as Hnew
    by (vm_compute; reflexivity).
  split; [vm_compute; reflexivity|]. split; [vm_compute; reflexivity|].
  split; [vm_compute; reflexivity|]. split; [exact Hnew|].
  intros Hclaim.
  destruct Hclaim as (_ & _ & Hno); [vm_compute; reflexivity..|].
  apply Hno. rewrite Hnew. apply elem_of_cons. right. apply elem_of_cons.
  by left.
Qed.

(** Region 2 is the largest of regions 1 and 2; region 3, added with more
    evictable space, takes its place. *)
Lemma peek_returns_largest_witness :
  (entries (_regions registered_world.2) ≠ []
   ∧ add 3%N (registered_world.1, registered_world.2)
     = Some ((the_world (add 3%N registered_world)).1,
             (the_world (add 3%N registered_world)).2))
  ∧ get_largest_region registered_world.1 registered_world.2 = Some 2%N
  ∧ top_region_evictable_space registered_world.1 registered_world.2 = 250
  ∧ get_largest_region (the_world (add 3%N registered_world)).1
      (the_world (add 3%N registered_world)).2 = Some 3%N.
Proof.
  destruct (peek_returns_largest registered_world.1 registered_world.2)
    as (_ & Hpeek & Hadd).
  assert (entries (_regions registered_world.2) ≠ []) as Hne
    by (vm_compute; discriminate).
  assert (add 3%N (registered_world.1, registered_world.2)
          = Some ((the_world (add 3%N registered_world)).1,
                  (the_world (add 3%N registered_world)).2)) as Hcall
    by (vm_compute; reflexivity).
  split; [by split|].
  destruct (Hpeek Hne) as (t & Ht & _ & Htop & _).
  split; [vm_compute; reflexivity|]. split; [vm_compute; reflexivity|].
  apply (Hadd 3%N _ _ Hcall).
  apply Forall_forall. apply (bool_decide_unpack _). vm_compute. reflexivity.
Defined.

(** C3, against the claim: [moved(1, 3)] with region 1 registered leaves
    the new handle on region 1 and none on region 3; [moved(3, 1)] with
    region 3 unregistered still inserts an entry and writes a handle. *)
Lemma moved_does_not_hand_over_handle :
  (region_heap_handle registered_world.1 1%N = Some 0%nat
   ∧ moved 1%N 3%N registered_world
     = Some (the_world (moved 1%N 3%N registered_world))
   ∧ region_heap_handle (the_world (moved 1%N 3%N registered_world)).1 1%N
     = Some 2%nat
   ∧ region_heap_handle (the_world (moved 1%N 3%N registered_world)).1 3%N
     = None)
  ∧ (region_heap_handle registered_world.1 3%N = None
     ∧ moved 3%N 1%N registered_world
       = Some (the_world (moved 3%N 1%N registered_world))
     ∧ entries (_regions (the_world (moved 3%N 1%N registered_world)).2)
       ≠ entries (_regions registered_world.2)
     ∧ region_heap_handle (the_world (moved 3%N 1%N registered_world)).1 3%N
       ≠ region_heap_handle registered_world.1 3%N).
Proof. by vm_compute. Qed.

(** [moved(1, 3)] with region 1 registered under handle 0. *)
Lemma moved_reinserts_and_keeps_handle_on_old_witness :
  (region_heap_handle registered_world.1 1%N = Some 0%nat
   ∧ moved 1%N 3%N (registered_world.1, registered_world.2)
     = Some ((the_world (moved 1%N 3%N registered_world)).1,
             (the_world (moved 1%N 3%N registered_world)).2))
  ∧ entries (_regions (the_world (moved 1%N 3%N registered_world)).2)
    = [(1%nat, 2%N); (2%nat, 3%N)]
  ∧ region_heap_handle (the_world (moved 1%N 3%N registered_world)).1 1%N
    = Some 2%nat.
Proof.
  assert (moved 1%N 3%N (registered_world.1, registered_world.2)
          = Some ((the_world (moved 1%N 3%N registered_world)).1,
                  (the_world (moved 1%N 3%N registered_world)).2)) as Hcall
    by (vm_compute; reflexivity).
  assert (region_heap_handle registered_world.1 1%N = Some 0%nat) as Hold
    by (vm_compute; reflexivity).
  split; [by split|].
  destruct (moved_reinserts_and_keeps_handle_on_old _ _ _ _ _ _ _ Hold Hcall)
    as (Hentries & Hhandle & _).
  split.
  - etrans; [exact Hentries|]. vm_compute. reflexivity.
  - etrans; [exact Hhandle|]. vm_compute. reflexivity.
Defined.



(** C5, against the claim: after the one call [update(5)] on the empty
    group [_total_memory] is 5, the deltas sum to 5, and no region is
    registered. *)
Lemma bare_update_is_not_occupancy :
  do_calls [call_update 5] (sample_store, sample_group)
  = Some (the_world (do_calls [call_update 5] (sample_store, sample_group)))
  ∧ _total_memory
      (the_world (do_calls [call_update 5] (sample_store, sample_group))).2 = 5
  ∧ entries
      (_regions
         (the_world (do_calls [call_update 5] (sample_store, sample_group))).2)
    = []
  ∧ _total_memory
      (the_world (do_calls [call_update 5] (sample_store, sample_group))).2
    ≠ registered_space
        (the_world (do_calls [call_update 5] (sample_store, sample_group))).1
        (the_world (do_calls [call_update 5] (sample_store, sample_group))).2.
Proof. by vm_compute. Qed.

(** A sequence of reported changes: the total is the registered space. *)
Lemma total_memory_accounting_witness :
  (map_Forall (λ _ x, _heap_handle x = None) sample_store
   ∧ do_calls [call_add 1%N; region_resized 1%N 50; call_add 2%N;
               region_resized 3%N 10; call_del 1%N; region_resized 2%N (-100)]
       (sample_store, (make_region_group "dirty" sample_cfg).2)
     = Some registered_world_resized)
  ∧ _total_memory registered_world_resized.2 = 200
  ∧ _total_memory registered_world_resized.2
    = registered_space registered_world_resized.1 registered_world_resized.2.
Proof.
  assert (map_Forall (λ _ x, _heap_handle x = None) sample_store) as Hfree.
  { unfold sample_store. repeat (apply map_Forall_insert_2; [reflexivity|]).
    apply map_Forall_empty. }
  assert (do_calls
            [call_add 1%N; region_resized 1%N 50; call_add 2%N;
             region_resized 3%N 10; call_del 1%N; region_resized 2%N (-100)]
            (sample_store, (make_region_group "dirty" sample_cfg).2)
          = Some (registered_world_resized.1, registered_world_resized.2))
    as Hcalls by (vm_compute; reflexivity).
  split; [split; [exact Hfree|vm_compute; reflexivity]|].
  destruct (total_memory_accounting _ _ _ _ _ _ Hfree Hcalls)
    as ((Hdeltas & _ & _) & Hreg).
  split; [vm_compute; reflexivity|].
  destruct Hreg as (_ & Hexact); [vm_compute; reflexivity|].
  apply Hexact. vm_compute. split; [discriminate|reflexivity].
Defined.

(** A run that executes a request, suspends, is shut down and ends. *)
Lemma releaser_protocol_witness :
  (make_region_group "dirty" sample_cfg = (Some Running, sample_group)
   ∧ run (Running, sample_group)
       [act_enqueue 7%nat None; act_iterate; act_iterate; act_shutdown;
        act_wake; act_iterate]
       (Terminated, released_group))
  ∧ _shutdown_requested released_group = true
  ∧ ∃ acts1 acts2,
      [act_enqueue 7%nat None; act_iterate; act_iterate; act_shutdown;
       act_wake; act_iterate] = acts1 ++ act_iterate :: acts2
      ∧ act_shutdown ∈ acts1.
Proof.
  assert (make_region_group "dirty" sample_cfg = (Some Running, sample_group))
    as Hmake by (vm_compute; reflexivity).
  assert (run (Running, sample_group)
            [act_enqueue 7%nat None; act_iterate; act_iterate; act_shutdown;
             act_wake; act_iterate]
            (Terminated, released_group)) as Hrun.
  { apply do_actions_run. vm_compute. reflexivity. }
  split; [by split|].
  destruct (releaser_protocol _ _ _ _ _ _ _ Hmake Hrun) as (_ & Hterm & _).
  apply Hterm. reflexivity.
Defined.

(** Request 7 expires at 150 behind throttle pressure; request 8 runs
    after relief. *)
Lemma expired_request_times_out_witness :
  (run (Running, (make_region_group "dirty" sample_cfg).2)
     [act_enqueue 7%nat (Some 100); act_enqueue 8%nat None; act_update 1500;
      act_iterate]
     (Suspended, blocked_group)
   ∧ (7%nat, Some 100) ∈ fifo (_blocked_requests blocked_group)
   ∧ 100 ≤ 150
   ∧ run (Suspended, expire 150 blocked_group)
       [act_update (-1500); act_wake; act_iterate; act_iterate]
       (Suspended, drained_group))
  ∧ failed 7%nat (blocked_requests_timed_out_error "dirty")
    ∈ observed (expire 150 blocked_group)
  ∧ (allocated 7%nat ∉ observed drained_group)
  ∧ (7%nat ∉ (fifo (_blocked_requests drained_group)).*1).
Proof.
  assert (run (Running, (make_region_group "dirty" sample_cfg).2)
            [act_enqueue 7%nat (Some 100); act_enqueue 8%nat None;
             act_update 1500; act_iterate]
            (Suspended, blocked_group)) as Hrun.
  { apply do_actions_run. vm_compute. reflexivity. }
  assert ((7%nat, Some 100) ∈ fifo (_blocked_requests blocked_group)) as Hin.
  { apply (bool_decide_unpack _). vm_compute. reflexivity. }
  assert (100 ≤ 150) as Hdue by lia.
  assert (run (Suspended, expire 150 blocked_group)
            [act_update (-1500); act_wake; act_iterate; act_iterate]
            (Suspended, drained_group)) as Hrun'.
  { apply do_actions_run. vm_compute. reflexivity. }
  split; [by repeat split|].
  destruct (expired_request_times_out _ _ _ _ _ _ _ _ _ _ _ _
              Hrun Hin Hdue Hrun') as (_ & Hfailed & _ & Hout & Hnot & _).
  by repeat split.
Defined.

(** * Further properties of the code *)

(** ** The debug check and the comparator *)

Section scan.
Implicit Types (mem : store) (l : list (handle_type * addr)).

(** X1: the scan of [region_group_binomial_group_sanity_check] started with
    bound [last] succeeds exactly when the values met, with [last] put in
    front, never rise from one to the next; the check itself starts from
    the [size_t] maximum. *)
Theorem sanity_scan_sorted mem last l :
  (sanity_scan mem last l = true
   ↔ Sorted Z.ge (last :: ((λ e, region_evictable_space mem e.2) <$> l)))
  ∧ (∀ bh, region_group_binomial_group_sanity_check mem bh = true
           ↔ Sorted Z.ge
               (size_max :: ((λ e, region_evictable_space mem e.2)
                             <$> heap_ordered mem bh))).
Proof.
  assert (∀ l last,
            sanity_scan mem last l = true
            ↔ Sorted Z.ge
                (last :: ((λ e, region_evictable_space mem e.2) <$> l)))
    as Hscan.
  { clear. induction l as [|e l IH]; intros last.
    - split; [repeat constructor|done].
    - rewrite fmap_cons. cbn [sanity_scan].
      destruct (Z.leb_spec (region_evictable_space mem e.2) last) as [Hle|Hgt];
        cbn [negb].
      + rewrite IH. split.
        * intros Hs. constructor; [done|]. constructor. lia.
        * intros Hs. by inversion Hs.
      + split; [done|]. intros Hs. inversion Hs as [|? ? _ Hhd]; subst.
        inversion Hhd; subst. lia. }
  split; [apply Hscan|]. intros bh. apply Hscan.
Qed.

(** X2: the comparator is a strict weak ordering: no region is below
    itself, being below is transitive, and so is being level (neither
    below the other). *)
Theorem comparator_strict_weak_order mem (r1 r2 r3 : addr) :
  let lt := region_evictable_occupancy_ascending_less_comparator mem in
  lt r1 r1 = false
  ∧ (lt r1 r2 = true → lt r2 r1 = false)
  ∧ (lt r1 r2 = true → lt r2 r3 = true → lt r1 r3 = true)
  ∧ (lt r1 r2 = false → lt r2 r1 = false →
     lt r2 r3 = false → lt r3 r2 = false →
     lt r1 r3 = false ∧ lt r3 r1 = false).
Proof.
  cbv zeta. unfold region_evictable_occupancy_ascending_less_comparator.
  rewrite ?Z.ltb_lt, ?Z.ltb_ge. repeat split; lia.
Qed.

End scan.

(** ** Registration *)

Section registration.
Implicit Types (mem : store) (g : region_group) (r : addr).

Lemma with_heap_handle_id (x : size_tracked_region) hd :
  _heap_handle x = hd → with_heap_handle hd x = x.
Proof. destruct x. simpl. by intros ->. Qed.

Lemma with_heap_handle_twice (x : size_tracked_region) hd1 hd2 :
  with_heap_handle hd2 (with_heap_handle hd1 x) = with_heap_handle hd2 x.
Proof. done. Qed.

Lemma update_hard_total_memory delta g :
  _hard_total_memory (update delta g)
  = wrap_size (_hard_total_memory g + delta).
Proof. by destruct (update_spec delta g) as (_ & _ & ? & _). Qed.

(** Adding a region's space and taking it away again, as the counters do. *)
Lemma wrap_add_then_subtract t occ :
  0 ≤ t < size_modulus →
  wrap_size (wrap_size (t + to_ssize occ) + to_ssize (wrap_size (- occ))) = t.
Proof.
  intros Ht.
  rewrite wrap_size_to_ssize, wrap_size_add_r, wrap_size_add_l.
  replace (t + to_ssize occ + - occ) with (t + - occ + to_ssize occ) by lia.
  rewrite wrap_size_to_ssize.
  replace (t + - occ + occ) with t by lia.
  by apply wrap_size_small.
Qed.

(** X4: [add] returns exactly for a region that holds no handle; the
    region then holds the new handle, its entry is in the priority
    structure, and adding it again does not return (the [assert]). *)
Theorem add_registers_once r mem g :
  (is_Some (add r (mem, g)) ↔ ∃ x, mem !! r = Some x ∧ _heap_handle x = None)
  ∧ (∀ mem' g',
       add r (mem, g) = Some (mem', g') →
       region_heap_handle mem' r = Some (next_handle (_regions g))
       ∧ (next_handle (_regions g), r) ∈ entries (_regions g')
       ∧ add r (mem', g') = None).
Proof.
  split.
  - unfold add. destruct (mem !! r) as [x|] eqn:Hx; simpl.
    + destruct (_heap_handle x) eqn:Hh; split.
      * by intros [? ?].
      * intros (y & [= <-] & Hy). congruence.
      * eauto.
      * eauto.
    + split; [by intros [? ?]|by intros (y & ? & _)].
  - intros mem' g' (x & Hx & Hh & -> & ->)%add_spec.
    assert (region_heap_handle
              (<[r:=with_heap_handle (Some (next_handle (_regions g))) x]> mem) r
            = Some (next_handle (_regions g))) as Hr.
    { unfold region_heap_handle. by rewrite lookup_insert_eq. }
    split; [done|]. split.
    + rewrite update_regions. cbn [_regions set_regions heap_push snd entries].
      rewrite elem_of_app, list_elem_of_singleton. by right.
    + unfold add. by rewrite lookup_insert_eq.
Qed.

(** X5: after [del] the region holds no handle and no entry carries the
    handle it held; a second [del] changes nothing, and [del] of a region
    without a handle changes nothing at all (no [update]). *)
Theorem del_idempotent r mem g mem' g' :
  del r (mem, g) = Some (mem', g') →
  region_heap_handle mem' r = None
  ∧ (∀ hd r', region_heap_handle mem r = Some hd →
              (hd, r') ∉ entries (_regions g'))
  ∧ del r (mem', g') = Some (mem', g')
  ∧ (region_heap_handle mem r = None → mem' = mem ∧ g' = g).
Proof.
  intros (x & Hx & Hcase)%del_spec. unfold region_heap_handle. rewrite Hx.
  destruct (_heap_handle x) as [hd|] eqn:Hh; destruct Hcase as [-> ->].
  - rewrite lookup_insert_eq. simpl. split; [done|]. split; [|split; [|done]].
    + intros hd' r' [= <-]. rewrite update_regions.
      cbn [_regions set_regions heap_erase entries].
      intros [Hne _]%list_elem_of_filter. by apply Hne.
    + unfold del. by rewrite lookup_insert_eq.
  - rewrite Hx. simpl. rewrite Hh. split; [done|]. split; [done|].
    split; [|done]. unfold del. rewrite Hx. simpl. by rewrite Hh.
Qed.

(** X6: [add] followed by [del] of the same region gives back the store,
    the entries of the priority structure and both counters, when the
    handles in use are below [next_handle] and the counters hold [size_t]
    values. *)
Theorem add_then_del_restores r mem g mem1 g1 :
  (∀ e, e ∈ entries (_regions g) → (e.1 < next_handle (_regions g))%nat) →
  0 ≤ _total_memory g < size_modulus →
  0 ≤ _hard_total_memory g < size_modulus →
  add r (mem, g) = Some (mem1, g1) →
  ∃ g2, del r (mem1, g1) = Some (mem, g2)
    ∧ entries (_regions g2) = entries (_regions g)
    ∧ _total_memory g2 = _total_memory g
    ∧ _hard_total_memory g2 = _hard_total_memory g.
Proof.
  intros Hfresh Htotal Hhard (x & Hx & Hh & -> & ->)%add_spec.
  unfold del. rewrite lookup_insert_eq. simpl.
  eexists. split; [|split; [|split]].
  - f_equal. f_equal. rewrite insert_insert_eq, with_heap_handle_twice.
    rewrite (with_heap_handle_id _ _ Hh). by apply insert_id.
  - rewrite !update_regions.
    cbn [_regions set_regions heap_erase heap_push snd entries].
    rewrite filter_app, filter_cons_False, filter_nil, app_nil_r
      by (intros Hn; by apply Hn).
    apply filter_all. intros e He%Hfresh. simpl. lia.
  - rewrite update_total_memory. cbn [_total_memory set_regions].
    rewrite update_total_memory.
    cbn [_total_memory set_regions with_heap_handle occupancy].
    by apply wrap_add_then_subtract.
  - rewrite update_hard_total_memory. cbn [_hard_total_memory set_regions].
    rewrite update_hard_total_memory.
    cbn [_hard_total_memory set_regions with_heap_handle occupancy].
    by apply wrap_add_then_subtract.
Qed.

End registration.

(** ** Invariants of call sequences *)

Section sequences.
Implicit Types (mem : store) (g : region_group) (r : addr).

(** X7: after any sequence of [add], [del], [update] and reported changes
    on a group that started empty, store and priority structure agree: a
    region holds a handle exactly when it has an entry, the entry carries
    that handle, and no region or handle occurs in two entries. *)
Theorem membership_stays_consistent name cfg mem cs mem' g' :
  map_Forall (λ _ x, _heap_handle x = None) mem →
  do_calls cs (mem, (make_region_group name cfg).2) = Some (mem', g') →
  (∀ r hd, region_heap_handle mem' r = Some hd
           ↔ (hd, r) ∈ entries (_regions g'))
  ∧ NoDup (entries (_regions g')).*1
  ∧ NoDup (entries (_regions g')).*2.
Proof.
  intros Hfree Hcalls.
  assert (registered_consistent mem' (_regions g')) as Hcons.
  { eapply do_calls_consistent; [exact Hcalls|].
    by apply make_region_group_consistent. }
  split; [|split].
  - intros r hd. destruct Hcons as (I1 & I2 & _). split; [apply I2|apply I1].
  - by destruct Hcons as (_ & _ & ? & _).
  - by eapply registered_consistent_NoDup_regions.
Qed.

End sequences.

(** ** Pressure over several updates *)

Section several_updates.
Implicit Types (g : region_group) (delta : Z) (ds : list Z).

Lemma wrap_size_le_max z : wrap_size z ≤ size_max.
Proof.
  unfold wrap_size, size_max. pose proof size_modulus_pos.
  pose proof (Z.mod_pos_bound z size_modulus). lia.
Qed.

Lemma update_cfg delta g : _cfg (update delta g) = _cfg g.
Proof. by destruct (update_spec delta g) as (? & _). Qed.

Lemma pressure_state_update delta g :
  pressure_state (update delta g)
  = (wrap_size (_total_memory g + delta),
     wrap_size (_hard_total_memory g + delta),
     wrap_size (_total_memory g + delta) >? throttle_threshold (_cfg g),
     wrap_size (_hard_total_memory g + delta)
     >? hard_throttle_threshold (_cfg g)).
Proof.
  unfold pressure_state.
  by destruct (update_spec delta g) as (_ & -> & -> & -> & -> & _).
Qed.

Lemma updates_snoc ds delta g :
  updates (ds ++ [delta]) g = update delta (updates ds g).
Proof. unfold updates. by rewrite foldl_app. Qed.

Lemma updates_cfg ds g : _cfg (updates ds g) = _cfg g.
Proof.
  induction ds as [|d ds IH] using rev_ind; [done|].
  by rewrite updates_snoc, update_cfg.
Qed.

Lemma updates_counters ds g :
  ds ≠ [] →
  _total_memory (updates ds g) = wrap_size (_total_memory g + sum_Z ds)
  ∧ _hard_total_memory (updates ds g)
    = wrap_size (_hard_total_memory g + sum_Z ds).
Proof.
  induction ds as [|d ds IH] using rev_ind; [done|]. intros _.
  rewrite updates_snoc, update_total_memory, update_hard_total_memory.
  rewrite sum_Z_app, sum_Z_cons.
  destruct (decide (ds = [])) as [->|Hne].
  - split; f_equal; unfold sum_Z; simpl; lia.
  - destruct (IH Hne) as [-> ->]. rewrite !wrap_size_add_l.
    split; f_equal; unfold sum_Z; simpl; lia.
Qed.

Lemma updates_flags ds g :
  ds ≠ [] →
  _under_pressure (updates ds g)
  = (_total_memory (updates ds g) >? throttle_threshold (_cfg g))
  ∧ _under_hard_pressure (updates ds g)
    = (_hard_total_memory (updates ds g) >? hard_throttle_threshold (_cfg g)).
Proof.
  destruct ds as [|d ds _] using rev_ind; [done|]. intros _.
  rewrite updates_snoc.
  destruct (update_spec d (updates ds g)) as (_ & -> & -> & -> & -> & _).
  by rewrite updates_cfg.
Qed.

(** X8: over any sequence of calls on a group that started empty the two
    counters are equal: [add], [del] and [update] move [_total_memory] and
    [_hard_total_memory] by the same deltas. *)
Theorem counters_move_together name cfg (mem : store) cs mem' g' :
  do_calls cs (mem, (make_region_group name cfg).2) = Some (mem', g') →
  _hard_total_memory g' = _total_memory g'.
Proof.
  assert (∀ d g, _hard_total_memory g = _total_memory g →
                 _hard_total_memory (update d g) = _total_memory (update d g))
    as Hupd.
  { intros d g Heq.
    destruct (update_spec d g) as (_ & -> & -> & _). by rewrite Heq. }
  assert (_hard_total_memory (make_region_group name cfg).2
          = _total_memory (make_region_group name cfg).2) as Hinit by done.
  revert Hinit. generalize ((make_region_group name cfg).2). revert mem.
  induction cs as [|c cs IH]; intros mem g Heq; simpl.
  - by intros [= _ <-].
  - destruct (do_call c (mem, g)) as [[mem1 g1]|] eqn:Hc; simpl; [|done].
    apply IH. destruct c as [r|r|d|r d]; simpl in Hc.
    + apply add_spec in Hc as (x & _ & _ & _ & ->). by apply Hupd.
    + apply del_spec in Hc as (x & _ & Hcase).
      destruct (_heap_handle x); destruct Hcase as [_ ->]; [|done].
      by apply Hupd.
    + injection Hc as _ <-. by apply Hupd.
    + destruct (mem !! r) as [x|]; simpl in Hc; [|done].
      destruct (_heap_handle x); injection Hc as _ <-; [by apply Hupd|done].
Qed.

(** X9: the counters and the two flags after several [update] calls are
    those after one [update] with the sum of the deltas; an [update(d)]
    followed by [update(-d)] gives back counters that held [size_t]
    values. *)
Theorem updates_depend_on_sum ds g :
  ds ≠ [] →
  pressure_state (updates ds g) = pressure_state (update (sum_Z ds) g)
  ∧ (∀ d, 0 ≤ _total_memory g < size_modulus →
          0 ≤ _hard_total_memory g < size_modulus →
          _total_memory (update (- d) (update d g)) = _total_memory g
          ∧ _hard_total_memory (update (- d) (update d g))
            = _hard_total_memory g).
Proof.
  intros Hne. split.
  - destruct (updates_counters ds g Hne) as [Ht Hh].
    destruct (updates_flags ds g Hne) as [Hp Hhp].
    rewrite pressure_state_update. unfold pressure_state.
    by rewrite Hp, Hhp, Ht, Hh.
  - intros d Ht Hh.
    rewrite !update_total_memory, !update_hard_total_memory.
    rewrite !wrap_size_add_l.
    replace (_total_memory g + d + - d) with (_total_memory g) by lia.
    replace (_hard_total_memory g + d + - d) with (_hard_total_memory g)
      by lia.
    by rewrite !wrap_size_small.
Qed.

(** X10: a group whose [throttle_threshold] is the [size_t] maximum starts
    no releaser and is not under throttle pressure after any updates; if
    [hard_throttle_threshold] is the maximum too, execution is permitted
    after any updates. *)
Theorem unlimited_group_never_throttles name cfg ds :
  throttle_threshold cfg = size_max →
  (make_region_group name cfg).1 = None
  ∧ under_pressure (updates ds (make_region_group name cfg).2) = false
  ∧ (hard_throttle_threshold cfg = size_max →
     execution_permitted (updates ds (make_region_group name cfg).2) = true).
Proof.
  intros Hmax. split; [|split].
  - unfold make_region_group, reclaimer_can_block. simpl.
    by rewrite Hmax, Z.eqb_refl.
  - destruct ds as [|d ds _] using rev_ind; [done|].
    rewrite updates_snoc. unfold under_pressure.
    destruct (update_spec d (updates ds (make_region_group name cfg).2))
      as (_ & _ & _ & -> & _).
    rewrite updates_cfg. simpl. rewrite Hmax, Z.gtb_ltb.
    apply Z.ltb_ge, wrap_size_le_max.
  - intros Hhard. destruct ds as [|d ds _] using rev_ind; [done|].
    rewrite updates_snoc. unfold execution_permitted, under_pressure.
    destruct (update_spec d (updates ds (make_region_group name cfg).2))
      as (_ & _ & _ & -> & -> & _).
    rewrite updates_cfg. simpl. rewrite Hmax, Hhard.
    assert (∀ z, (wrap_size z >? size_max) = false) as Hle.
    { intros z. rewrite Z.gtb_ltb. apply Z.ltb_ge, wrap_size_le_max. }
    by rewrite !Hle.
Qed.

(** X11: [update_hard] is the hard half of [update]: it leaves
    [_total_memory] and throttle pressure alone and issues no soft
    notification, and it leaves [_hard_total_memory] and hard pressure as
    [update] with the same delta does. *)
Theorem update_hard_is_hard_half delta g :
  _total_memory (update_hard delta g) = _total_memory g
  ∧ under_pressure (update_hard delta g) = under_pressure g
  ∧ soft_notifications (new_events g (update_hard delta g)) = []
  ∧ _hard_total_memory (update_hard delta g)
    = _hard_total_memory (update delta g)
  ∧ _under_hard_pressure (update_hard delta g)
    = _under_hard_pressure (update delta g).
Proof.
  unfold under_pressure.
  destruct (update_hard_spec delta g) as (_ & -> & -> & -> & -> & Hobs & _).
  destruct (update_spec delta g) as (_ & _ & -> & _ & -> & _).
  rewrite (new_events_app _ _ _ Hobs).
  repeat split. by destruct (_ && _).
Qed.

(** X12: every [update] issues exactly one soft notification: soft
    pressure when the new [_total_memory] is above [soft_limit_threshold],
    soft relief otherwise, whatever was notified before. *)
Theorem update_notifies_soft_once delta g :
  soft_notifications (new_events g (update delta g))
  = [if _total_memory (update delta g) >? soft_limit_threshold (_cfg g)
     then soft_pressure_notified else soft_relief_notified].
Proof.
  destruct (update_spec delta g) as (_ & -> & _ & _ & _ & Hobs & _).
  rewrite (new_events_app _ _ _ Hobs).
  by destruct (_ >? soft_limit_threshold _), (_ || _).
Qed.

End several_updates.

(** ** The queue and the releaser at work *)

Section at_work.
Implicit Types (g : region_group) (t : releaser_state) (acts : list action).

Lemma executed_of_app (l1 l2 : list event) :
  executed_of (l1 ++ l2) = executed_of l1 ++ executed_of l2.
Proof. apply omap_app. Qed.

Lemma executed_of_expiry name (xs : list (request * option time_point)) :
  executed_of ((λ e, on_request_expiry name e.1) <$> xs) = [].
Proof. induction xs as [|x xs IH]; csimpl; [done|]. by rewrite IH. Qed.

Lemma execute_one_front g req expiry rest :
  fifo (_blocked_requests g) = (req, expiry) :: rest →
  execute_one g
  = Some (emit (allocated req)
            (set_blocked_requests
               (mk_queue (on_expiry_name (_blocked_requests g)) rest) g)).
Proof. unfold execute_one. by intros ->. Qed.

(** X13: [k] calls of [execute_one] return exactly when at least [k]
    requests are queued; they run the first [k] requests in queue order,
    leave the others queued in their order, and do not touch the counters
    or the pressure flags. *)
Theorem execute_many_fifo k g :
  ((k ≤ length (fifo (_blocked_requests g)))%nat →
   ∃ g', execute_many k g = Some g'
     ∧ fifo (_blocked_requests g') = drop k (fifo (_blocked_requests g))
     ∧ observed g'
       = observed g
         ++ (allocated <$> (take k (fifo (_blocked_requests g))).*1)
     ∧ pressure_state g' = pressure_state g)
  ∧ ((length (fifo (_blocked_requests g)) < k)%nat →
     execute_many k g = None).
Proof.
  revert g. induction k as [|k IH]; intros g.
  - split; [|simpl; lia]. intros _. exists g.
    by rewrite drop_0, take_0, app_nil_r.
  - destruct (fifo (_blocked_requests g)) as [|[req expiry] rest] eqn:Hq.
    + split; [simpl; lia|]. intros _. simpl. unfold execute_one.
      by rewrite Hq.
    + simpl. rewrite (execute_one_front _ _ _ _ Hq). simpl.
      set (g1 := emit (allocated req) _).
      destruct (IH g1) as [Hsome Hnone].
      assert (fifo (_blocked_requests g1) = rest) as Hq1 by done.
      rewrite Hq1 in Hsome, Hnone. split.
      * intros Hle. destruct Hsome as (g' & -> & Hq' & Hobs & Hps); [lia|].
        exists g'. split; [done|]. split; [done|]. split; [|done].
        rewrite Hobs. unfold g1. simpl. by rewrite <- app_assoc.
      * intros Hlt. apply Hnone. lia.
Qed.

Lemma do_actions_cons a acts s :
  do_actions (a :: acts) s
  = match do_action a s with
    | Some s' => do_actions acts s'
    | None => None
    end.
Proof.
  unfold do_actions. simpl. destruct (do_action a s) as [s'|]; [done|].
  induction acts as [|a' acts IH]; [done|]. done.
Qed.

(** X14: a running task whose group is not shut down and permits
    execution runs, in as many runs of the loop body as requests are
    queued, every queued request in queue order, and leaves the queue
    empty. *)
Theorem releaser_drains_queue g :
  _shutdown_requested g = false →
  execution_permitted g = true →
  ∃ g', run (Running, g)
          (replicate (length (fifo (_blocked_requests g))) act_iterate)
          (Running, g')
    ∧ fifo (_blocked_requests g') = []
    ∧ executed g' = executed g ++ (fifo (_blocked_requests g)).*1
    ∧ pressure_state g' = pressure_state g.
Proof.
  intros Hsd Hperm.
  assert (∃ g', do_actions
                  (replicate (length (fifo (_blocked_requests g))) act_iterate)
                  (Running, g) = Some (Running, g')
            ∧ fifo (_blocked_requests g') = []
            ∧ executed g' = executed g ++ (fifo (_blocked_requests g)).*1
            ∧ pressure_state g' = pressure_state g) as (g' & Hdo & Hrest).
  { remember (fifo (_blocked_requests g)) as q eqn:Hq.
    revert g Hsd Hperm Hq.
    induction q as [|[req expiry] rest IH]; intros g Hsd Hperm Hq.
    - exists g. simpl. by rewrite app_nil_r.
    - simpl. rewrite do_actions_cons. simpl.
      unfold releaser_iteration, queue_empty.
      rewrite Hsd, <- Hq, Hperm. simpl.
      rewrite (execute_one_front _ _ _ _ (eq_sym Hq)). simpl.
      set (g1 := emit (allocated req) _).
      destruct (IH g1) as (g' & Hdo & Hq' & Hex & Hps); try done.
      exists g'. split; [done|]. split; [done|]. split; [|done].
      rewrite Hex. unfold executed, g1. simpl.
      rewrite executed_of_app. simpl. by rewrite <- app_assoc. }
  exists g'. split; [by apply do_actions_run|done].
Qed.

(** X15: once [_shutdown_requested] is set it stays set, and no request
    is executed any more, whatever is called and however often the task
    runs: what is still queued is not run. *)
Theorem nothing_executes_after_shutdown t g acts t' g' :
  _shutdown_requested g = true →
  run (t, g) acts (t', g') →
  _shutdown_requested g' = true ∧ executed g' = executed g.
Proof.
  intros Hsd Hrun.
  apply (run_preserves
           (λ s, _shutdown_requested s.2 = true ∧ executed s.2 = executed g)
           (t, g) acts (t', g')); [|done|done].
  clear. intros [t1 g1] a [t2 g2] Hstep [Hsd Hex]. simpl in *.
  unfold executed in *. inversion Hstep; subst.
  - destruct (releaser_iteration_cases g1)
      as [[_ Hi]|[(Hno & _)|(Hno & _)]]; [|congruence..].
    match goal with H : releaser_iteration _ = _ |- _ =>
      rewrite Hi in H; by injection H as _ <- end.
  - done.
  - destruct (update_spec delta g1) as (_&_&_&_&_& -> &_&_&_& ->).
    split; [done|]. rewrite !executed_of_app, Hex.
    by destruct (_ >? _), (_ || _); rewrite app_nil_r.
  - destruct (update_hard_spec delta g1) as (_&_&_&_&_& -> &_&_&_& ->).
    split; [done|]. rewrite !executed_of_app, Hex.
    by destruct (_ && _); rewrite app_nil_r.
  - done.
  - destruct (expire_spec now g1) as (_ & -> & ->). split; [done|].
    by rewrite executed_of_app, executed_of_expiry, app_nil_r.
  - simpl. split; [done|]. by rewrite executed_of_app, Hex, app_nil_r.
Qed.

(** X16: a task suspended on [_relief] with a request queued behind
    pressure is released by the [update] that clears the pressure: the
    update signals, the task wakes, and its next run of the loop body
    executes the front request. *)
Theorem relief_releases_blocked_request g delta req expiry rest :
  has_waiter (_relief g) = true →
  _shutdown_requested g = false →
  fifo (_blocked_requests g) = (req, expiry) :: rest →
  execution_permitted g = false →
  execution_permitted (update delta g) = true →
  ∃ g', run (Suspended, g) [act_update delta; act_wake; act_iterate]
          (Running, g')
    ∧ fifo (_blocked_requests g') = rest
    ∧ observed g' = observed (update delta g) ++ [allocated req].
Proof.
  intros Hwait Hsd Hq Hblocked Hperm.
  destruct (update_spec delta g)
    as (_ & _ & _ & Hp & Hhp & _ & Hrelief & _ & Hq' & Hsd').
  unfold execution_permitted, under_pressure in *.
  assert (has_waiter (_relief (update delta g)) = false) as Hwoken.
  { rewrite Hrelief. rewrite Hp, Hhp in Hperm.
    destruct (_ >? throttle_threshold _), (_ >? hard_throttle_threshold _),
      (_under_pressure g), (_under_hard_pressure g); try done;
      unfold signal; by rewrite Hwait. }
  assert (releaser_iteration (update delta g)
          = Some (ready stop_no,
                  emit (allocated req)
                    (set_blocked_requests
                       (mk_queue
                          (on_expiry_name (_blocked_requests (update delta g)))
                          rest)
                       (update delta g)))) as Hiter.
  { unfold releaser_iteration, queue_empty, execution_permitted,
      under_pressure.
    rewrite Hsd', Hsd, Hq', Hq, Hperm. simpl.
    rewrite (execute_one_front _ req expiry rest) by (by rewrite Hq').
    by rewrite Hq'. }
  eexists. split; [|split].
  - apply (run_snoc _ [act_update delta; act_wake] (Running, update delta g)
             act_iterate).
    + apply (run_snoc _ [act_update delta] (Suspended, update delta g)
               act_wake).
      * apply (run_snoc _ [] (Suspended, g) (act_update delta));
          constructor.
      * by constructor.
    + apply (step_iterate _ _ _ Hiter).
  - done.
  - done.
Qed.

End at_work.

(** ** Peeking across registration, and shutdown *)

Section peek_and_shutdown.
Implicit Types (mem : store) (g : region_group) (r : addr).

(** X17: after [add] of a region, [top_region_evictable_space()] is the
    larger of its value before and the evictable space of the added
    region. *)
Theorem add_raises_peek r mem g mem' g' :
  0 ≤ region_evictable_space mem r →
  add r (mem, g) = Some (mem', g') →
  top_region_evictable_space mem' g'
  = Z.max (top_region_evictable_space mem g) (region_evictable_space mem r).
Proof.
  intros Hpos (x & Hx & Hh & -> & ->)%add_spec.
  unfold top_region_evictable_space. rewrite update_regions.
  cbn [_regions set_regions].
  assert (heap_empty (heap_push r (_regions g)).2 = false) as ->.
  { unfold heap_empty, heap_push. simpl. by destruct (entries (_regions g)). }
  rewrite (heap_top_ext mem)
    by (intros r'; by apply region_evictable_space_insert_handle).
  unfold heap_top at 1, heap_push. cbn [snd entries].
  rewrite fmap_app. cbn [fmap list_fmap snd]. rewrite foldl_pick_top_snoc.
  fold (heap_top mem (_regions g)).
  destruct (heap_empty (_regions g)) eqn:He.
  - apply heap_empty_spec in He. unfold heap_top. rewrite He. simpl.
    rewrite region_evictable_space_insert_handle by done. lia.
  - destruct (heap_top mem (_regions g)) as [b|] eqn:Hb.
    + simpl. unfold region_evictable_occupancy_ascending_less_comparator.
      destruct (Z.ltb_spec (region_evictable_space mem b)
                  (region_evictable_space mem r));
        rewrite region_evictable_space_insert_handle by done; lia.
    + exfalso. destruct (heap_top_nonempty mem (_regions g)) as [? ?];
        [|congruence].
      intros Hnil. apply heap_empty_spec in Hnil. congruence.
Qed.

(** X18: [del] never raises [top_region_evictable_space()] (evictable
    spaces being sizes, not negative). *)
Theorem del_lowers_peek r mem g mem' g' :
  map_Forall (λ _ x, 0 ≤ total_space (evictable_occupancy x)) mem →
  del r (mem, g) = Some (mem', g') →
  top_region_evictable_space mem' g' ≤ top_region_evictable_space mem g.
Proof.
  intros Hsizes (x & Hx & Hcase)%del_spec.
  assert (∀ r', 0 ≤ region_evictable_space mem r') as Hpos.
  { intros r'. unfold region_evictable_space.
    destruct (mem !! r') as [y|] eqn:Hy; [|done].
    apply (map_Forall_lookup_1 _ _ _ _ Hsizes Hy). }
  destruct (_heap_handle x) as [hd|] eqn:Hh;
    destruct Hcase as [-> ->]; [|lia].
  unfold top_region_evictable_space. rewrite update_regions.
  cbn [_regions set_regions].
  rewrite (heap_top_ext mem)
    by (intros r'; by apply region_evictable_space_insert_handle).
  destruct (heap_empty (heap_erase hd (_regions g))) eqn:He'.
  { destruct (heap_empty (_regions g)); [lia|].
    destruct (heap_top mem (_regions g)); [apply Hpos|lia]. }
  destruct (heap_top mem (heap_erase hd (_regions g))) as [t'|] eqn:Ht'.
  - apply heap_top_max in Ht' as [Hin _].
    assert (t' ∈ (entries (_regions g)).*2) as Hin0.
    { apply list_elem_of_fmap in Hin as [e [-> He]].
      apply list_elem_of_filter in He as [_ He].
      apply list_elem_of_fmap. by exists e. }
    rewrite region_evictable_space_insert_handle by done.
    destruct (heap_empty (_regions g)) eqn:He.
    { apply heap_empty_spec in He. rewrite He in Hin0.
      by apply elem_of_nil in Hin0. }
    destruct (heap_top mem (_regions g)) as [t|] eqn:Ht.
    + apply heap_top_max in Ht as [_ Hmax]. by apply Hmax.
    + destruct (heap_top_nonempty mem (_regions g)) as [? ?]; [|congruence].
      intros Hnil. apply heap_empty_spec in Hnil. congruence.
  - destruct (heap_empty (_regions g)); [lia|].
    destruct (heap_top mem (_regions g)); [apply Hpos|lia].
Qed.

(** X19: after [shutdown()] a task that has not ended does so within two
    steps of its own (waking if it was suspended, then one run of the loop
    body), also with requests queued and under pressure; it executes
    nothing on the way, and the future [shutdown()] returned is then
    resolved. *)
Theorem shutdown_ends_task t g :
  t ≠ Terminated →
  ∃ acts, (acts = [act_iterate] ∨ acts = [act_wake; act_iterate])
    ∧ run (t, shutdown g) acts (Terminated, shutdown g)
    ∧ executed (shutdown g) = executed g
    ∧ releaser_resolved (Some Terminated) = true.
Proof.
  intros Ht.
  assert (executed (shutdown g) = executed g) as Hex.
  { unfold executed, shutdown, signal_relief. simpl.
    unfold executed_of. by rewrite omap_app, app_nil_r. }
  destruct t; [| |done].
  - exists [act_iterate]. split; [by left|]. split; [|done].
    apply do_actions_run. reflexivity.
  - exists [act_wake; act_iterate]. split; [by right|]. split; [|done].
    apply do_actions_run. unfold do_actions, shutdown, signal_relief, signal.
    simpl. by destruct (has_waiter (_relief g)).
Qed.

End peek_and_shutdown.

(** ** Admission after an update *)

Section admission.
Implicit Types (g : region_group) (delta : Z).

(** X20: after an [update], [execution_permitted()] holds exactly when
    the new [_total_memory] is not above [throttle_threshold] and the new
    [_hard_total_memory] is not above [hard_throttle_threshold]: admission
    follows the counters as they are now, whatever the flags were. *)
Theorem admission_follows_counters delta g :
  execution_permitted (update delta g) = true
  ↔ _total_memory (update delta g) ≤ throttle_threshold (_cfg g)
    ∧ _hard_total_memory (update delta g) ≤ hard_throttle_threshold (_cfg g).
Proof.
  unfold execution_permitted, under_pressure.
  destruct (update_spec delta g) as (_ & -> & -> & -> & -> & _).
  rewrite negb_true_iff, orb_false_iff, !Z.gtb_ltb, !Z.ltb_ge. done.
Qed.

End admission.

(** * The further properties on the sample configurations *)

(** Regions 1, 2, 3 have 100, 250, 400 evictable. *)
Lemma comparator_strict_weak_order_witness :
  region_evictable_occupancy_ascending_less_comparator registered_world.1
    1%N 3%N = true.
Proof.
  destruct (comparator_strict_weak_order registered_world.1 1%N 2%N 3%N)
    as (_ & _ & Htrans & _).
  apply Htrans; vm_compute; reflexivity.
Defined.

(** Region 3 is added once; the second [add] does not return. *)
Lemma add_registers_once_witness :
  add 3%N (registered_world.1, registered_world.2)
  = Some ((the_world (add 3%N registered_world)).1,
          (the_world (add 3%N registered_world)).2)
  ∧ add 3%N ((the_world (add 3%N registered_world)).1,
             (the_world (add 3%N registered_world)).2) = None.
Proof.
  assert (add 3%N (registered_world.1, registered_world.2)
          = Some ((the_world (add 3%N registered_world)).1,
                  (the_world (add 3%N registered_world)).2)) as Hcall
    by (vm_compute; reflexivity).
  split; [exact Hcall|].
  destruct (add_registers_once 3%N registered_world.1 registered_world.2)
    as (_ & Hadded).
  by destruct (Hadded _ _ Hcall) as (_ & _ & Hagain).
Defined.

(** Region 1 is removed; removing it again changes nothing. *)
Lemma del_idempotent_witness :
  del 1%N (registered_world.1, registered_world.2)
  = Some ((the_world (del 1%N registered_world)).1,
          (the_world (del 1%N registered_world)).2)
  ∧ del 1%N ((the_world (del 1%N registered_world)).1,
             (the_world (del 1%N registered_world)).2)
    = Some ((the_world (del 1%N registered_world)).1,
            (the_world (del 1%N registered_world)).2).
Proof.
  assert (del 1%N (registered_world.1, registered_world.2)
          = Some ((the_world (del 1%N registered_world)).1,
                  (the_world (del 1%N registered_world)).2)) as Hcall
    by (vm_compute; reflexivity).
  split; [exact Hcall|].
  by destruct (del_idempotent _ _ _ _ _ Hcall) as (_ & _ & Hagain & _).
Defined.

(** Region 3 added to regions 1 and 2 and removed again. *)
Lemma add_then_del_restores_witness :
  ((∀ e, e ∈ entries (_regions registered_world.2) →
         (e.1 < next_handle (_regions registered_world.2))%nat)
   ∧ 0 ≤ _total_memory registered_world.2 < size_modulus
   ∧ 0 ≤ _hard_total_memory registered_world.2 < size_modulus
   ∧ add 3%N (registered_world.1, registered_world.2)
     = Some ((the_world (add 3%N registered_world)).1,
             (the_world (add 3%N registered_world)).2))
  ∧ ∃ g2,
      del 3%N ((the_world (add 3%N registered_world)).1,
               (the_world (add 3%N registered_world)).2)
      = Some (registered_world.1, g2)
      ∧ entries (_regions g2) = entries (_regions registered_world.2)
      ∧ _total_memory g2 = _total_memory registered_world.2
      ∧ _hard_total_memory g2 = _hard_total_memory registered_world.2.
Proof.
  assert (∀ e, e ∈ entries (_regions registered_world.2) →
               (e.1 < next_handle (_regions registered_world.2))%nat)
    as Hfresh.
  { apply Forall_forall. apply (bool_decide_unpack _). vm_compute.
    reflexivity. }
  assert (0 ≤ _total_memory registered_world.2 < size_modulus) as Htotal
    by (vm_compute; split; [discriminate|reflexivity]).
  assert (0 ≤ _hard_total_memory registered_world.2 < size_modulus) as Hhard
    by (vm_compute; split; [discriminate|reflexivity]).
  assert (add 3%N (registered_world.1, registered_world.2)
          = Some ((the_world (add 3%N registered_world)).1,
                  (the_world (add 3%N registered_world)).2)) as Hcall
    by (vm_compute; reflexivity).
  split; [exact (conj Hfresh (conj Htotal (conj Hhard Hcall)))|].
  exact (add_then_del_restores _ _ _ _ _ Hfresh Htotal Hhard Hcall).
Defined.

(** The sample sequence of calls leaves store and heap in agreement. *)
Lemma membership_stays_consistent_witness :
  (map_Forall (λ _ x, _heap_handle x = None) sample_store
   ∧ do_calls [call_add 1%N; region_resized 1%N 50; call_add 2%N;
               region_resized 3%N 10; call_del 1%N; region_resized 2%N (-100)]
       (sample_store, (make_region_group "dirty" sample_cfg).2)
     = Some (registered_world_resized.1, registered_world_resized.2))
  ∧ NoDup (entries (_regions registered_world_resized.2)).*2.
Proof.
  assert (map_Forall (λ _ x, _heap_handle x = None) sample_store) as Hfree.
  { unfold sample_store. repeat (apply map_Forall_insert_2; [reflexivity|]).
    apply map_Forall_empty. }
  assert (do_calls
            [call_add 1%N; region_resized 1%N 50; call_add 2%N;
             region_resized 3%N 10; call_del 1%N; region_resized 2%N (-100)]
            (sample_store, (make_region_group "dirty" sample_cfg).2)
          = Some (registered_world_resized.1, registered_world_resized.2))
    as Hcalls by (vm_compute; reflexivity).
  split; [by split|].
  by destruct (membership_stays_consistent _ _ _ _ _ _ Hfree Hcalls)
    as (_ & _ & Hnodup).
Defined.

(** The same sequence leaves both counters equal. *)
Lemma counters_move_together_witness :
  do_calls [call_add 1%N; region_resized 1%N 50; call_add 2%N;
            region_resized 3%N 10; call_del 1%N; region_resized 2%N (-100)]
    (sample_store, (make_region_group "dirty" sample_cfg).2)
  = Some (registered_world_resized.1, registered_world_resized.2)
  ∧ _hard_total_memory registered_world_resized.2
    = _total_memory registered_world_resized.2.
Proof.
  assert (do_calls
            [call_add 1%N; region_resized 1%N 50; call_add 2%N;
             region_resized 3%N 10; call_del 1%N; region_resized 2%N (-100)]
            (sample_store, (make_region_group "dirty" sample_cfg).2)
          = Some (registered_world_resized.1, registered_world_resized.2))
    as Hcalls by (vm_compute; reflexivity).
  split; [exact Hcalls|].
  exact (counters_move_together _ _ _ _ _ _ Hcalls).
Defined.

(** 600, 500 and -200 in three updates or in one of 900. *)
Lemma updates_depend_on_sum_witness :
  [600; 500; -200] ≠ []
  ∧ pressure_state (updates [600; 500; -200] sample_group)
    = pressure_state (update (sum_Z [600; 500; -200]) sample_group).
Proof.
  assert ([600; 500; -200] ≠ []) as Hne by discriminate.
  split; [exact Hne|].
  by destruct (updates_depend_on_sum [600; 500; -200] sample_group Hne)
    as [Hsame _].
Defined.

(** With no threshold set, execution stays permitted. *)
Lemma unlimited_group_never_throttles_witness :
  throttle_threshold unlimited_cfg = size_max
  ∧ (make_region_group "dirty" unlimited_cfg).1 = None
  ∧ execution_permitted
      (updates [600; 500; -200] (make_region_group "dirty" unlimited_cfg).2)
    = true.
Proof.
  assert (throttle_threshold unlimited_cfg = size_max) as Hmax
    by reflexivity.
  split; [exact Hmax|].
  destruct (unlimited_group_never_throttles "dirty" unlimited_cfg
              [600; 500; -200] Hmax) as (Hnone & _ & Hperm).
  split; [exact Hnone|]. apply Hperm. reflexivity.
Defined.

(** Both requests of [blocked_group] run by two calls. *)
Lemma execute_many_fifo_witness :
  (2 ≤ length (fifo (_blocked_requests blocked_group)))%nat
  ∧ ∃ g', execute_many 2 blocked_group = Some g'
      ∧ fifo (_blocked_requests g')
        = drop 2 (fifo (_blocked_requests blocked_group))
      ∧ observed g'
        = observed blocked_group
          ++ (allocated <$> (take 2 (fifo (_blocked_requests blocked_group))).*1)
      ∧ pressure_state g' = pressure_state blocked_group.
Proof.
  assert (2 ≤ length (fifo (_blocked_requests blocked_group)))%nat as Hle
    by (vm_compute; lia).
  split; [exact Hle|].
  destruct (execute_many_fifo 2 blocked_group) as [Hsome _].
  exact (Hsome Hle).
Defined.

(** The task of [queued_group] runs requests 7 and 8. *)
Lemma releaser_drains_queue_witness :
  (_shutdown_requested queued_group = false
   ∧ execution_permitted queued_group = true)
  ∧ ∃ g', run (Running, queued_group)
            (replicate (length (fifo (_blocked_requests queued_group)))
               act_iterate)
            (Running, g')
      ∧ fifo (_blocked_requests g') = []
      ∧ executed g'
        = executed queued_group ++ (fifo (_blocked_requests queued_group)).*1
      ∧ pressure_state g' = pressure_state queued_group.
Proof.
  assert (_shutdown_requested queued_group = false) as Hsd
    by (vm_compute; reflexivity).
  assert (execution_permitted queued_group = true) as Hperm
    by (vm_compute; reflexivity).
  split; [by split|].
  exact (releaser_drains_queue queued_group Hsd Hperm).
Defined.

(** After shutdown of [blocked_group] neither queued request is run. *)
Lemma nothing_executes_after_shutdown_witness :
  (_shutdown_requested (shutdown blocked_group) = true
   ∧ run (Suspended, shutdown blocked_group)
       [act_wake; act_iterate; act_update (-1500)]
       (Terminated, shut_group))
  ∧ _shutdown_requested shut_group = true
  ∧ executed shut_group = executed (shutdown blocked_group).
Proof.
  assert (_shutdown_requested (shutdown blocked_group) = true) as Hsd
    by (vm_compute; reflexivity).
  assert (run (Suspended, shutdown blocked_group)
            [act_wake; act_iterate; act_update (-1500)]
            (Terminated, shut_group)) as Hrun.
  { apply do_actions_run. vm_compute. reflexivity. }
  split; [by split|].
  exact (nothing_executes_after_shutdown _ _ _ _ _ Hsd Hrun).
Defined.

(** [update(-1500)] releases request 7 of [blocked_group]. *)
Lemma relief_releases_blocked_request_witness :
  (has_waiter (_relief blocked_group) = true
   ∧ _shutdown_requested blocked_group = false
   ∧ fifo (_blocked_requests blocked_group)
     = (7%nat, Some 100) :: [(8%nat, None)]
   ∧ execution_permitted blocked_group = false
   ∧ execution_permitted (update (-1500) blocked_group) = true)
  ∧ ∃ g', run (Suspended, blocked_group)
            [act_update (-1500); act_wake; act_iterate] (Running, g')
      ∧ fifo (_blocked_requests g') = [(8%nat, None)]
      ∧ observed g'
        = observed (update (-1500) blocked_group) ++ [allocated 7%nat].
Proof.
  assert (has_waiter (_relief blocked_group) = true) as H1
    by (vm_compute; reflexivity).
  assert (_shutdown_requested blocked_group = false) as H2
    by (vm_compute; reflexivity).
  assert (fifo (_blocked_requests blocked_group)
          = (7%nat, Some 100) :: [(8%nat, None)]) as H3
    by (vm_compute; reflexivity).
  assert (execution_permitted blocked_group = false) as H4
    by (vm_compute; reflexivity).
  assert (execution_permitted (update (-1500) blocked_group) = true) as H5
    by (vm_compute; reflexivity).
  split; [exact (conj H1 (conj H2 (conj H3 (conj H4 H5))))|].
  exact (relief_releases_blocked_request _ _ _ _ _ H1 H2 H3 H4 H5).
Defined.

(** Region 3 (400 evictable) added to a peek of 250. *)
Lemma add_raises_peek_witness :
  (0 ≤ region_evictable_space registered_world.1 3%N
   ∧ add 3%N (registered_world.1, registered_world.2)
     = Some ((the_world (add 3%N registered_world)).1,
             (the_world (add 3%N registered_world)).2))
  ∧ top_region_evictable_space (the_world (add 3%N registered_world)).1
      (the_world (add 3%N registered_world)).2
    = Z.max (top_region_evictable_space registered_world.1 registered_world.2)
        (region_evictable_space registered_world.1 3%N).
Proof.
  assert (0 ≤ region_evictable_space registered_world.1 3%N) as Hpos
    by (vm_compute; discriminate).
  assert (add 3%N (registered_world.1, registered_world.2)
          = Some ((the_world (add 3%N registered_world)).1,
                  (the_world (add 3%N registered_world)).2)) as Hcall
    by (vm_compute; reflexivity).
  split; [by split|].
  exact (add_raises_peek _ _ _ _ _ Hpos Hcall).
Defined.

(** Region 2, the largest, removed. *)
Lemma del_lowers_peek_witness :
  (map_Forall (λ _ x, 0 ≤ total_space (evictable_occupancy x))
     registered_world.1
   ∧ del 2%N (registered_world.1, registered_world.2)
     = Some ((the_world (del 2%N registered_world)).1,
             (the_world (del 2%N registered_world)).2))
  ∧ top_region_evictable_space (the_world (del 2%N registered_world)).1
      (the_world (del 2%N registered_world)).2
    ≤ top_region_evictable_space registered_world.1 registered_world.2.
Proof.
  assert (map_Forall (λ _ x, 0 ≤ total_space (evictable_occupancy x))
            registered_world.1) as Hsizes.
  { apply (bool_decide_unpack _). vm_compute. reflexivity. }
  assert (del 2%N (registered_world.1, registered_world.2)
          = Some ((the_world (del 2%N registered_world)).1,
                  (the_world (del 2%N registered_world)).2)) as Hcall
    by (vm_compute; reflexivity).
  split; [by split|].
  exact (del_lowers_peek _ _ _ _ _ Hsizes Hcall).
Defined.

(** The suspended task of [blocked_group] ends after [shutdown()]. *)
Lemma shutdown_ends_task_witness :
  Suspended ≠ Terminated
  ∧ ∃ acts, (acts = [act_iterate] ∨ acts = [act_wake; act_iterate])
      ∧ run (Suspended, shutdown blocked_group) acts
          (Terminated, shutdown blocked_group)
      ∧ executed (shutdown blocked_group) = executed blocked_group
      ∧ releaser_resolved (Some Terminated) = true.
Proof.
  assert (Suspended ≠ Terminated) as Hne by discriminate.
  split; [exact Hne|].
  exact (shutdown_ends_task Suspended blocked_group Hne).
Defined.
